(** * funsor: term model, symbolic reduction, canonicalization, contraction
      path re-expansion, contraction registry and the trampoline driver.

    Shallow embedding of
      - funsor/terms.py                  (term classes, reduce, bool/item, interning)
      - funsor/contract.py               (Contract node and its generic handlers)
      - funsor/engine/opteinsum_engine.py (Desugar / Deoptimize / Optimize stages)
      - funsor/engine/engine.py          (trampoline handler and eval)

    Python objects that are hash-consed by [ConsHashedMeta] are modelled as
    values of an inductive type: two terms are the same instance exactly when
    they are equal, which is what module [ConsHash] establishes for the
    interning cache itself. *)

From Stdlib Require Import ZArith Lia List Bool.
From stdpp Require Import base option list strings gmap sets sorting.

Set Warnings "-register-all".

Open Scope string_scope.
Open Scope list_scope.

(* ------------------------------------------------------------------ *)
(** ** Exceptions and fallible results *)

Inductive exn :=
  | AssertionError
  | ValueError
  | NotImplementedError
  | RuntimeError
  | IndexError
  | KeyError
  | UnboundLocalError
  | RecursionError
  | TypeError
  | AttributeError.

Inductive res (A : Type) :=
  | Ok (a : A)
  | Raise (e : exn).
Arguments Ok {A} a.
Arguments Raise {A} e.

#[global] Instance res_ret : MRet res := fun _ a => Ok a.
#[global] Instance res_bind : MBind res := fun _ _ k m =>
  match m with
  | Ok a => k a
  | Raise e => Raise e
  end.

#[global] Instance res_fmap : FMap res := fun _ _ f m =>
  match m with
  | Ok a => Ok (f a)
  | Raise e => Raise e
  end.

Definition is_ok {A} (m : res A) : bool :=
  match m with Ok _ => true | Raise _ => false end.

(* ------------------------------------------------------------------ *)
(** ** Operators (funsor.ops), compared by identity *)

Inductive op :=
  | op_invert | op_neg | op_abs | op_sqrt | op_exp | op_log | op_log1p
  | op_add | op_sub | op_rsub | op_mul | op_truediv | op_rtruediv
  | op_pow | op_rpow | op_and | op_or | op_xor
  | op_eq | op_ne | op_lt | op_le | op_gt | op_ge
  | op_min | op_max | op_logaddexp | op_marginal | op_sample.

#[global] Instance op_eq_dec : EqDecision op.
Proof. solve_decision. Defined.

(* ------------------------------------------------------------------ *)
(** ** Sizes, backend data and terms *)

(** A size is a non-negative integer or one of [DOMAINS]. *)
Inductive size :=
  | SInt (n : nat)
  | SDomain (s : string).

#[global] Instance size_eq_dec : EqDecision size.
Proof. solve_decision. Defined.

Definition DOMAINS : list string := ["real"; "density"].

(** A [torch.Tensor]: its shape and its entries in row-major order.
    Only what terms.py reads from it ([.shape], [bool()], [.item()]) is
    kept; entries are integers. *)
Record torch_Tensor := mk_torch {
  t_shape : list nat;
  t_values : list Z
}.

#[global] Instance torch_Tensor_eq_dec : EqDecision torch_Tensor.
Proof. solve_decision. Defined.

(** The argument that Contract receives as [dim]: the class expects one
    dimension name, the registered handlers pass a frozenset. *)
Inductive pyarg :=
  | PStr (s : string)
  | PFrozenset (ds : gset string).

Inductive term :=
  | Variable_ (name : string) (sz : size)
  | Substitution (arg : term) (subs : list (string * term))
  | Align (arg : term) (ds : list string) (sh : list size)
  | Unary (o : op) (arg : term)
  | Binary (o : op) (lhs rhs : term)
  | Finitary (o : op) (operands : list term)
  | Reduction (o : op) (arg : term) (reduce_dims : gset string)
  | Number (data : Z)
  | Tensor (ds : list string) (data : torch_Tensor)
  | Normal (params : list (string * term)) (ds : list string) (sh : list size)
  | Contract (sum_op prod_op : op) (lhs rhs : term) (dim : pyarg).

(** *** Schemas: [OrderedDict] from dims to sizes *)

Definition schema_t := list (string * size).

Fixpoint schema_get (d : string) (s : schema_t) : option size :=
  match s with
  | [] => None
  | (k, v) :: s' => if decide (k = d) then Some v else schema_get d s'
  end.

(** [OrderedDict.__setitem__]: an existing key keeps its position. *)
Fixpoint schema_set (d : string) (v : size) (s : schema_t) : schema_t :=
  match s with
  | [] => [(d, v)]
  | (k, w) :: s' => if decide (k = d) then (k, v) :: s' else (k, w) :: schema_set d v s'
  end.

(** [OrderedDict.update(other)] *)
Definition schema_update (s other : schema_t) : schema_t :=
  fold_left (fun acc kv => schema_set kv.1 kv.2 acc) other s.

(** [del schema[d]] when the key is present. *)
Definition schema_del (d : string) (s : schema_t) : schema_t :=
  filter (fun kv => kv.1 ≠ d) s.

Definition size_of_nat (n : nat) : size := SInt n.

(** [zip(dims, shape)] as [Funsor.__init__] stores it.  The constructor
    asserts [len(dims) == len(shape)]; a size that would be missing, which
    no constructed term has, reads as 0, so that the keys of a schema are
    always the dims. *)
Fixpoint pair_sizes (ds : list string) (sh : list size) : schema_t :=
  match ds with
  | [] => []
  | d :: ds' => (d, hd (SInt 0) sh) :: pair_sizes ds' (tl sh)
  end.

(** Modelled from the spec: the class [Finitary] is imported from
    funsor.terms by both engines but terms.py does not define it.  It is
    the n-ary generalization of [Binary], so its schema is that of its
    operands, each updating the one before, as [Binary.__init__] does for
    two. *)
Definition Finitary_schema (operand_schemas : list schema_t) : schema_t :=
  fold_left schema_update operand_schemas [].

(** [self.schema] = [OrderedDict(zip(dims, shape))], following each class's
    [__init__].  [Normal] stands for the classes of
    funsor/distributions.py, which is not part of the sources, and carries
    its dims and shape. *)
Fixpoint schema (x : term) : schema_t :=
  match x with
  | Variable_ name sz => [(name, sz)]
  | Substitution arg subs =>
      let s0 := schema arg in
      let s1 := fold_left (fun acc dv => schema_del (fst dv) acc) subs s0 in
      (fix splice (l : list (string * term)) (acc : schema_t) : schema_t :=
         match l with
         | [] => acc
         | (_, v) :: l' => splice l' (schema_update acc (schema v))
         end) subs s1
  | Align arg ds sh => pair_sizes ds sh
  | Unary _ arg => schema arg
  | Binary _ lhs rhs => schema_update (schema lhs) (schema rhs)
  | Finitary _ operands => Finitary_schema (map schema operands)
  | Reduction _ arg reduce_dims =>
      filter (fun kv => kv.1 ∉ reduce_dims) (schema arg)
  | Number _ => []
  | Tensor ds data => pair_sizes ds (size_of_nat <$> t_shape data)
  | Normal _ ds sh => pair_sizes ds sh
  | Contract _ _ lhs rhs dim =>
      let s := schema_update (schema lhs) (schema rhs) in
      match dim with
      | PStr d => schema_del d s
      | PFrozenset _ => s
      end
  end.

(** [self.dims] and [self.shape]: the tuples handed to [Funsor.__init__]. *)
Definition dims (x : term) : list string :=
  match x with
  | Tensor ds _ | Align _ ds _ | Normal _ ds _ => ds
  | _ => (schema x).*1
  end.

Definition shape (x : term) : list size :=
  match x with
  | Tensor _ data => size_of_nat <$> t_shape data
  | Align _ _ sh | Normal _ _ sh => sh
  | _ => (schema x).*2
  end.

(** *** The checks of the constructors *)

(** [isinstance(s, int) or s in DOMAINS] *)
Definition valid_size (s : size) : bool :=
  match s with
  | SInt _ => true
  | SDomain s => bool_decide (s ∈ DOMAINS)
  end.

(** The assertions of [Funsor.__init__] on the tuples [dims] and [shape]. *)
Definition Funsor_init (ds : list string) (sh : list size) : res unit :=
  if bool_decide (base.size (list_to_set (C:=gset string) ds) = length ds)
     && forallb valid_size sh
     && bool_decide (length ds = length sh)
  then Ok () else Raise AssertionError.

(** [Tensor.__init__], as run by a call [Tensor(dims, data)] *)
Definition Tensor_init (ds : list string) (data : torch_Tensor) : res term :=
  _ ← Funsor_init ds (size_of_nat <$> t_shape data); Ok (Tensor ds data).

(* ------------------------------------------------------------------ *)
(** ** The numeric backend (torch, opt_einsum, funsor.ops tables)

    terms.py and contract.py are written against these; none of them is
    part of the repository. *)

Class Backend := {
  (** membership in [ops.REDUCE_OP_TO_TORCH] *)
  REDUCE_OP_TO_TORCH : op -> bool;
  (** [torch_op(data)] *)
  torch_op_all : op -> torch_Tensor -> torch_Tensor;
  (** [data.reshape(-1).logsumexp(0)] *)
  torch_logsumexp_flat : torch_Tensor -> torch_Tensor;
  (** [torch_op(data, pos)] *)
  torch_op_at : op -> torch_Tensor -> nat -> torch_Tensor;
  (** [getattr(data, op.__name__)(pos)[0]] *)
  torch_minmax_at : op -> torch_Tensor -> nat -> torch_Tensor;
  (** [opt_einsum.contract(ldata, ldims, rdata, rdims, dims, backend=...)] *)
  opt_einsum_contract :
    string -> torch_Tensor -> list string -> torch_Tensor -> list string ->
    list string -> res torch_Tensor
}.

(** [bool(data)] and [data.item()] of torch: defined for data holding
    exactly one entry, whatever its number of axes. *)
Definition torch_bool (data : torch_Tensor) : res bool :=
  match t_values data with
  | [v] => Ok (negb (v =? 0)%Z)
  | _ => Raise RuntimeError
  end.

Definition torch_item (data : torch_Tensor) : res Z :=
  match t_values data with
  | [v] => Ok v
  | _ => Raise RuntimeError
  end.

(* ------------------------------------------------------------------ *)
(** ** terms.py: reduce *)

(** The [dims] argument of [reduce]: [None], one name, or a collection. *)
Inductive dims_arg :=
  | DNone
  | DStr (s : string)
  | DSet (A : gset string).

(** [frozenset(s)] of a string is the set of its characters. *)
Fixpoint chars (s : string) : list string :=
  match s with
  | EmptyString => []
  | String c s' => String c EmptyString :: chars s'
  end.

Definition frozenset (d : dims_arg) : gset string :=
  match d with
  | DNone => ∅
  | DStr s => list_to_set (chars s)
  | DSet A => A
  end.

Definition is_empty_set (A : gset string) : bool := bool_decide (A = ∅).

(** [Funsor.reduce] *)
Definition Funsor_reduce (self : term) (o : op) (d : dims_arg) : term :=
  let ds : gset string :=
    match d with
    | DNone => list_to_set (dims self)
    | DStr s => {[ s ]} ∩ list_to_set (dims self)
    | DSet A => A ∩ list_to_set (dims self)
    end in
  if is_empty_set ds then self else Reduction o self ds.

(** [self.dims.index(d)] *)
Fixpoint index_of (d : string) (ds : list string) : option nat :=
  match ds with
  | [] => None
  | d' :: ds' => if decide (d' = d) then Some 0 else S <$> index_of d ds'
  end.

(** The loop of [Tensor.reduce] over
    [reversed(sorted(map(self.dims.index, dims)))]. *)
Definition Tensor_reduce_data `{Backend} (o : op) (self_dims : list string)
    (ds : gset string) (data : torch_Tensor) : torch_Tensor :=
  let positions := reverse (merge_sort Nat.le (omap (fun d => index_of d self_dims) (elements ds))) in
  fold_left
    (fun data pos =>
       if bool_decide (o = op_min \/ o = op_max)
       then torch_minmax_at o data pos
       else torch_op_at o data pos)
    positions data.

(** The branch [dims == self_dims] of [Tensor.reduce]. *)
Definition Tensor_reduce_all `{Backend} (o : op) (data : torch_Tensor) : torch_Tensor :=
  if decide (o = op_logaddexp)
  then torch_logsumexp_flat data  (* work around missing torch.Tensor.logsumexp() *)
  else torch_op_all o data.

(** [Tensor.reduce] *)
Definition Tensor_reduce `{Backend} (self : term) (self_dims : list string)
    (data : torch_Tensor) (o : op) (d : dims_arg) : term :=
  if REDUCE_OP_TO_TORCH o then
    let sd : gset string := list_to_set self_dims in
    let ds : gset string :=
      match d with
      | DNone => sd
      | _ => sd ∩ frozenset d
      end in
    if is_empty_set ds then self
    else if bool_decide (ds = sd) then
      Tensor [] (Tensor_reduce_all o data)
    else
      Tensor (filter (fun x => x ∉ ds) self_dims) (Tensor_reduce_data o self_dims ds data)
  else Funsor_reduce self o d.

(** [x.reduce(op, dims)], dispatched on the class of [x]:
    [Align.reduce], [Reduction.reduce], [Tensor.reduce], else [Funsor.reduce]. *)
Fixpoint reduce `{Backend} (x : term) (o : op) (d : dims_arg) : term :=
  match x with
  | Align arg _ _ => reduce arg o d
  | Reduction self_op arg reduce_dims =>
      if decide (o = self_op) then
        let ds : gset string :=
          match d with
          | DNone => list_to_set (dims x)
          | _ => frozenset d ∩ list_to_set (dims x)
          end in
        Reduction o arg (reduce_dims ∪ ds)
      else Funsor_reduce x o d
  | Tensor _ data => Tensor_reduce x (dims x) data o d
  | _ => Funsor_reduce x o d
  end.

(** A [Reduction] whose argument is a [Reduction] with the same op. *)
Definition nested_reduction (x : term) : bool :=
  match x with
  | Reduction o (Reduction o' _ _) _ => bool_decide (o = o')
  | _ => false
  end.

(** The term an [Align] view, or a stack of them, wraps. *)
Fixpoint strip_align (x : term) : term :=
  match x with
  | Align arg _ _ => strip_align arg
  | _ => x
  end.

Definition is_Align (x : term) : bool :=
  match x with Align _ _ _ => true | _ => false end.

Definition is_Tensor (x : term) : bool :=
  match x with Tensor _ _ => true | _ => false end.

(* ------------------------------------------------------------------ *)
(** ** terms.py: __bool__ and item *)

(** [Funsor.__bool__] *)
Definition Funsor_bool (self : term) : res bool :=
  match shape self with
  | [] => Raise NotImplementedError
  | _ :: _ => Raise ValueError
  end.

(** [Funsor.item] *)
Definition Funsor_item (self : term) : res Z :=
  match shape self with
  | [] => Raise NotImplementedError
  | _ :: _ => Raise ValueError
  end.

(** [bool(x)]: [Number.__bool__], [Tensor.__bool__], else [Funsor.__bool__]. *)
Definition bool_ (x : term) : res bool :=
  match x with
  | Number data => Ok (negb (data =? 0)%Z)
  | Tensor _ data => torch_bool data
  | _ => Funsor_bool x
  end.

(** [x.item()]: [Number.item], [Tensor.item], else [Funsor.item]. *)
Definition item (x : term) : res Z :=
  match x with
  | Number data => Ok data
  | Tensor _ data => torch_item data
  | _ => Funsor_item x
  end.

(** A [Tensor] whose data holds exactly one entry. *)
Definition one_element_tensor (x : term) : bool :=
  match x with
  | Tensor _ data => bool_decide (length (t_values data) = 1)
  | _ => false
  end.

(** Inputs on which statements are run. *)
Definition tensor_one_entry : term := Tensor ["i"] (mk_torch [1] [5%Z]).
Definition tensor_two_entries : term := Tensor ["i"] (mk_torch [2] [5%Z; 7%Z]).
Definition tensor_ijk : term :=
  Tensor ["i"; "j"; "k"] (mk_torch [2; 2; 2] [1; 2; 3; 4; 5; 6; 7; 8]%Z).
Definition lazy_ji : term := Binary op_add (Variable_ "j" (SInt 4)) (Variable_ "i" (SInt 3)).
Definition aligned_ij : term := Align lazy_ji ["i"; "j"] [SInt 3; SInt 4].

(** A backend on which statements can be run: every reduction collapses
    its input to the zero-dimensional tensor holding 0. *)
Definition zero_backend : Backend := {|
  REDUCE_OP_TO_TORCH := fun o =>
    bool_decide (o ∈ [op_add; op_mul; op_and; op_or; op_logaddexp; op_min; op_max]);
  torch_op_all := fun _ _ => mk_torch [] [0%Z];
  torch_logsumexp_flat := fun _ => mk_torch [] [0%Z];
  torch_op_at := fun _ _ _ => mk_torch [] [0%Z];
  torch_minmax_at := fun _ _ _ => mk_torch [] [0%Z];
  opt_einsum_contract := fun _ _ _ _ _ _ => Ok (mk_torch [] [0%Z])
|}.

(* ------------------------------------------------------------------ *)
(** ** opteinsum_engine.py: Desugar and Deoptimize *)

Definition is_Finitary (x : term) : bool :=
  match x with Finitary _ _ => true | _ => false end.

Definition is_Reduction (x : term) : bool :=
  match x with Reduction _ _ _ => true | _ => false end.

(** [isinstance(term, Deoptimize.GROUND_TERMS)] with
    [GROUND_TERMS = (Distribution, Substitution, Number, Tensor)] *)
Definition is_GROUND_TERM (x : term) : bool :=
  match x with
  | Normal _ _ _ | Substitution _ _ | Number _ | Tensor _ _ => true
  | _ => false
  end.

(** [binary_to_finitary] *)
Definition binary_to_finitary (o : op) (lhs : term) (rhs : option term) : term :=
  match rhs with
  | Some r => Finitary o [lhs; r]
  | None => Finitary o [lhs]
  end.

(** A Python set object, a [set] or a [frozenset]: [union] returns an
    object of the class of its receiver. *)
Inductive pyset :=
  | PySet (A : gset string)
  | PyFrozenset (A : gset string).

Definition pyset_union (s : pyset) (other : gset string) : pyset :=
  match s with
  | PySet A => PySet (A ∪ other)
  | PyFrozenset A => PyFrozenset (A ∪ other)
  end.

(** A call [Reduction(op, arg, reduce_dims)]: [ConsHashedMeta.__call__]
    looks the key [(cls, args)] up in the cache before anything else, and a
    key that holds a [set] cannot be hashed. *)
Definition Reduction_call (o : op) (arg : term) (reduce_dims : pyset) : res term :=
  match reduce_dims with
  | PySet _ => Raise TypeError
  | PyFrozenset A => Ok (Reduction o arg A)
  end.

(** [deoptimize_finitary] *)
Definition deoptimize_finitary (o : op) (operands : list term) : res term :=
  if forallb (fun t => is_Finitary t || is_GROUND_TERM t) operands then
    (* Case 1) Finitary(Finitary) -> Finitary *)
    let new_operands :=
      flat_map (fun t =>
        match t with
        | Finitary o' inner => if decide (o' = o) then inner else [t]
        | _ => [t]
        end) operands in
    Ok (Finitary o new_operands)
  else if forallb is_Reduction operands then
    (* Case 2) Finitary(Reduction, Reduction) -> Reduction(Finitary(lhs.arg, rhs.arg)) *)
    let new_operands :=
      omap (fun t => match t with Reduction _ arg _ => Some arg | _ => None end) operands in
    (* new_reduce_dims = set(), then new_reduce_dims.union(term.reduce_dims) *)
    let new_reduce_dims : pyset :=
      fold_left (fun acc t =>
        match t with Reduction _ _ rd => pyset_union acc rd | _ => acc end)
        operands (PySet ∅) in
    match operands with
    | Reduction o0 _ _ :: _ => Reduction_call o0 (Finitary o new_operands) new_reduce_dims
    | _ => Raise IndexError
    end
  else if forallb (fun t => negb (is_Reduction t || is_Finitary t)) operands then
    Ok (Finitary o operands)
  else
    Raise NotImplementedError.

(** [deoptimize_reduction] *)
Definition deoptimize_reduction (o : op) (arg : term) (reduce_dims : gset string) : term :=
  match arg with
  | Reduction o' inner rd =>
      if decide (o' = o) then Reduction o inner (reduce_dims ∪ rd)
      else Reduction o arg reduce_dims
  | _ => Reduction o arg reduce_dims
  end.

(* ------------------------------------------------------------------ *)
(** ** opteinsum_engine.py: Optimize *)

(** [opt_einsum.paths.greedy(inputs, outputs, size_dict)]: an external
    library; for two or more operands its result is a list of pairs of
    operand positions.  What the loop does with a tuple that is not a
    pair is in [run_raw_path]. *)
Class PathOptimizer := {
  greedy : list (gset string) -> gset string -> gmap string Z -> list (nat * nat)
}.

(** Keys of [reduce_dim_counter]: [update] is given a dict keyed by
    dimension names, [subtract] is given an iterable of pairs [(d, 1)] and
    so counts the pairs themselves. *)
Inductive ckey :=
  | KDim (d : string)
  | KPair (d : string) (n : Z).

#[global] Instance ckey_eq_dec : EqDecision ckey.
Proof. solve_decision. Defined.

#[global] Instance ckey_countable : Countable ckey.
Proof.
  refine (inj_countable'
    (fun k => match k with KDim d => inl d | KPair d n => inr (d, n) end)
    (fun s => match s with inl d => KDim d | inr (d, n) => KPair d n end) _).
  by intros [].
Defined.

(** [collections.Counter] *)
Definition counter_get (c : gmap ckey Z) (k : ckey) : Z := default 0%Z (c !! k).

(** [Counter.update(mapping)] with every count equal to 1 *)
Definition counter_update_ones (c : gmap ckey Z) (keys : list ckey) : gmap ckey Z :=
  fold_left (fun c k => <[k := (counter_get c k + 1)%Z]> c) keys c.

(** [Counter.subtract(iterable)] with an iterable that is not a mapping *)
Definition counter_subtract (c : gmap ckey Z) (elems : list ckey) : gmap ckey Z :=
  fold_left (fun c e => <[e := (counter_get c e - 1)%Z]> c) elems c.

Definition set_dims (x : term) : gset string := list_to_set (dims x).

Record path_state := mk_path_state {
  ps_operands : list term;
  ps_counter : gmap ckey Z;
  ps_path_end : option term
}.

(** One iteration of [for (a, b) in path]. *)
Definition path_step (reduce_op finitary_op : op) (reduce_dims : gset string)
    (st : path_state) (ab : nat * nat) : res path_state :=
  let '(a, b) := ab in
  match ps_operands st !! a with
  | None => Raise IndexError
  | Some ta =>
    match ps_operands st !! b with
    | None => Raise IndexError
    | Some tb =>
      let operands := delete b (ps_operands st) in
      let path_end_finitary := Finitary finitary_op [ta; tb] in
      let c1 := counter_subtract (ps_counter st)
                  ((fun d => KPair d 1) <$> elements (reduce_dims ∩ set_dims ta)) in
      let c2 := counter_subtract c1
                  ((fun d => KPair d 1) <$> elements (reduce_dims ∩ set_dims tb)) in
      let path_end_reduce_dims : gset string :=
        filter (fun d => counter_get c2 (KDim d) = 0%Z)
               (reduce_dims ∩ (set_dims ta ∪ set_dims tb)) in
      let path_end := Reduction reduce_op path_end_finitary path_end_reduce_dims in
      if decide (a < length operands)
      then Ok (mk_path_state (<[a := path_end]> operands) c2 (Some path_end))
      else Raise IndexError
    end
  end.

Fixpoint run_path (reduce_op finitary_op : op) (reduce_dims : gset string)
    (path : list (nat * nat)) (st : path_state) : res path_state :=
  match path with
  | [] => Ok st
  | ab :: path' =>
      st' ← path_step reduce_op finitary_op reduce_dims st ab;
      run_path reduce_op finitary_op reduce_dims path' st'
  end.

Definition initial_counter (inputs : list (gset string)) : gmap ckey Z :=
  fold_left (fun c input => counter_update_ones c (KDim <$> elements input)) inputs ∅.

(** What the code expects of a path over [n] operands: every step names
    two positions [a < b] of the current list, and the steps leave one
    operand. *)
Fixpoint valid_path (n : nat) (path : list (nat * nat)) : bool :=
  match path with
  | [] => bool_decide (n = 1)
  | (a, b) :: path' => bool_decide (a < b < n) && valid_path (n - 1) path'
  end.

(** The reduced set of the [Reduction] that wraps a pairwise step. *)
Definition step_reduce_dims (st : path_state) : gset string :=
  match ps_path_end st with
  | Some (Reduction _ _ rd) => rd
  | _ => ∅
  end.

(** Dimension [d] is retired in state [st]: its counter is zero and no
    operand still waiting in the list, other than the step just built,
    mentions it. *)
Definition retired (st : path_state) (d : string) : Prop :=
  counter_get (ps_counter st) (KDim d) = 0%Z /\
  forall t, t ∈ ps_operands st -> Some t <> ps_path_end st -> d ∉ set_dims t.

(** What every iteration keeps, for [U] the dims of the original operands
    and [c0] the counter the loop starts with: the counts of dimension
    names are those of [c0], the operands mention dims of [U] only, and
    the step just built reduces nothing. *)
Definition path_invariant (U : gset string) (c0 : gmap ckey Z) (st : path_state) : Prop :=
  (forall d, counter_get (ps_counter st) (KDim d) = counter_get c0 (KDim d)) /\
  (forall t, t ∈ ps_operands st -> set_dims t ⊆ U) /\
  step_reduce_dims st = ∅.

(** The state in which the loop over [path] starts. *)
Definition initial_state (arg_operands : list term) : path_state :=
  mk_path_state arg_operands (initial_counter (set_dims <$> arg_operands)) None.

(** The opt_einsum IR of the operands and the path computed from it. *)
Definition optimizer_path `{PathOptimizer} (arg_operands : list term)
    (reduce_dims : gset string) : list (nat * nat) :=
  let inputs := set_dims <$> arg_operands in
  let size_dict : gmap string Z :=
    list_to_map ((fun d => (d, 2%Z)) <$> concat (dims <$> arg_operands)) in
  let outputs := ⋃ inputs ∖ reduce_dims in
  greedy inputs outputs size_dict.

(** [frozenset(d for (d, count) in reduce_dim_counter.items() if count > 0) & reduce_dims];
    a pair key [(d, 1)] is never a member of [reduce_dims]. *)
Definition final_reduce_dims (reduce_dim_counter : gmap ckey Z)
    (reduce_dims : gset string) : gset string :=
  list_to_set (omap (fun kc => match kc with
                               | (KDim d, count) => if decide (0 < count)%Z then Some d else None
                               | _ => None
                               end) (map_to_list reduce_dim_counter))
  ∩ reduce_dims.

(** [optimize_reduction] *)
Definition optimize_reduction `{PathOptimizer} (o : op) (arg : term)
    (reduce_dims : gset string) : res term :=
  match arg with
  | Finitary finitary_op arg_operands =>
      let path := optimizer_path arg_operands reduce_dims in
      st ← run_path o finitary_op reduce_dims path (initial_state arg_operands);
      (* reduce any remaining dims, if necessary *)
      let final := final_reduce_dims (ps_counter st) reduce_dims in
      match ps_path_end st with
      | None => Raise UnboundLocalError
      | Some path_end =>
          if is_empty_set final then Ok path_end
          else Ok (Reduction o path_end final)
      end
  | _ => Ok (Reduction o arg reduce_dims)
  end.

(** What the retirement rule says about a state of the loop. *)
Definition retires_only_when_folded (st : path_state) : Prop :=
  forall d, d ∈ step_reduce_dims st -> retired st d.

(** A path optimizer on which statements can be run: contract the first
    two operands until one is left. *)
Definition left_to_right : PathOptimizer := {|
  greedy := fun inputs _ _ => replicate (length inputs - 1) (0, 1)
|}.

(** Three operands with dims [{i,j}], [{j,k}], [{k,l}]. *)
Definition x_ij : term := Binary op_mul (Variable_ "i" (SInt 2)) (Variable_ "j" (SInt 2)).
Definition x_jk : term := Binary op_mul (Variable_ "j" (SInt 2)) (Variable_ "k" (SInt 2)).
Definition x_kl : term := Binary op_mul (Variable_ "k" (SInt 2)) (Variable_ "l" (SInt 2)).

(* ------------------------------------------------------------------ *)
(** ** contract.py *)

(** [dim in x.dims] for the value received as [dim]: dims are strings, and
    a frozenset never equals a string. *)
Definition py_in (dim : pyarg) (ds : list string) : bool :=
  match dim with
  | PStr d => bool_decide (d ∈ ds)
  | PFrozenset _ => false
  end.

(** [Contract.__init__], as run by a call [Contract(sum_op, prod_op, lhs, rhs, dim)] *)
Definition Contract_init (sum_op prod_op : op) (lhs rhs : term) (dim : pyarg) : res term :=
  if py_in dim (dims lhs) && py_in dim (dims rhs)
  then Ok (Contract sum_op prod_op lhs rhs dim)
  else Raise AssertionError.

(** [_sumproduct] *)
Definition _sumproduct (lhs rhs : term) (reduce_dims : gset string) : res term :=
  Contract_init op_add op_mul lhs rhs (PFrozenset reduce_dims).

(** [_logsumproductexp] *)
Definition _logsumproductexp (lhs rhs : term) (reduce_dims : gset string) : res term :=
  Contract_init op_logaddexp op_add lhs rhs (PFrozenset reduce_dims).

(** The body shared by [_sumproduct_tensor_tensor] and
    [_logsumproductexp_tensor_tensor]; [del schema[dim]] raises on a
    dimension that neither operand has, [opt_einsum.contract] may raise
    (on operands that disagree on the size of a shared dim, for one), and
    [Tensor(dims, data)] checks the data it is given. *)
Definition contract_tensor_tensor `{Backend} (backend : string)
    (ldims : list string) (ldata : torch_Tensor)
    (rdims : list string) (rdata : torch_Tensor)
    (reduce_dims : gset string) : res term :=
  let s := schema_update (schema (Tensor ldims ldata)) (schema (Tensor rdims rdata)) in
  if bool_decide (reduce_dims ⊆ list_to_set s.*1) then
    let out := (filter (fun kv => kv.1 ∉ reduce_dims) s).*1 in
    data ← opt_einsum_contract backend ldata ldims rdata rdims out;
    Tensor_init out data
  else Raise KeyError.

(** Modelled from the spec: the [KeyedRegistry] of funsor/registry.py is
    not part of the sources; lookup selects the most specific handler
    registered for the operator pair and the operand kinds, and reports a
    miss when the pair has no entry. *)
Definition contract `{Backend} (ops : op * op) (lhs rhs : term)
    (reduce_dims : gset string) : res term :=
  match ops with
  | (op_add, op_mul) =>
      match lhs, rhs with
      | Tensor ld ldata, Tensor rd rdata =>
          contract_tensor_tensor "torch" ld ldata rd rdata reduce_dims
      | _, _ => _sumproduct lhs rhs reduce_dims
      end
  | (op_logaddexp, op_add) =>
      match lhs, rhs with
      | Tensor ld ldata, Tensor rd rdata =>
          contract_tensor_tensor "pyro.ops.einsum.torch_log" ld ldata rd rdata reduce_dims
      | _, _ => _logsumproductexp lhs rhs reduce_dims
      end
  | _ => Raise NotImplementedError
  end.

(* ------------------------------------------------------------------ *)
(** ** terms.py: ConsHashedMeta *)

Module ConsHash.
Section Interning.
(** Classes and hashable constructor arguments; dictionary keys are
    compared with [==], which is equality of [C * list A]. Funsors and
    backend tensors hash by [id], so an argument of that kind is its
    handle. *)
Context {C A : Type} `{Countable C} `{Countable A}.

(** [inspect.getargspec(cls.__init__)[0][1:]] *)
Variable init_args : C -> list string.
(** [type.__call__(cls, *args)] runs [cls.__init__], whose assertions may fail. *)
Variable init : C -> list A -> res unit.

(** The interning cache maps a key to the handle of a live instance;
    [next_id] is the handle the next allocation receives. *)
Record heap := mk_heap {
  _cache : gmap (C * list A) nat;
  next_id : nat
}.

(** Conversion of keyword arguments to positional ones. *)
Fixpoint kwargs_to_args (names : list string) (kwargs : gmap string A) : res (list A) :=
  match names with
  | [] => Ok []
  | name :: names' =>
      match kwargs !! name with
      | None => Raise KeyError
      | Some v => rest ← kwargs_to_args names' kwargs; Ok (v :: rest)
      end
  end.

Definition canonical_args (cls : C) (args : list A) (kwargs : gmap string A) : res (list A) :=
  if bool_decide (kwargs = ∅) then Ok args
  else extra ← kwargs_to_args (drop (length args) (init_args cls)) kwargs;
       Ok (args ++ extra).

(** [ConsHashedMeta.__call__] *)
Definition call (cls : C) (args : list A) (kwargs : gmap string A) (h : heap)
    : res (nat * heap) :=
  args ← canonical_args cls args kwargs;
  let key := (cls, args) in
  match _cache h !! key with
  | Some result => Ok (result, h)
  | None =>
      _ ← init cls args;
      let result := next_id h in
      Ok (result, mk_heap (<[key := result]> (_cache h)) (S result))
  end.

(** [AddTypeMeta.__call__] *)
Definition AddTypeMeta_call (type : A -> A) (cls : C) (data : A) (dtype : option A)
    (h : heap) : res (nat * heap) :=
  let dtype := match dtype with None => type data | Some t => t end in
  call cls [data; dtype] ∅ h.

(** The cache is a [WeakValueDictionary]: entries of instances that are
    no longer referenced disappear. *)
Definition collect (dead : gset nat) (h : heap) : heap :=
  mk_heap (filter (fun kv => kv.2 ∉ dead) (_cache h)) (next_id h).

(** What can happen to the heap between two call sites while the
    instance [keep] stays referenced. *)
Inductive heap_step (keep : nat) : heap -> heap -> Prop :=
  | step_call cls args kwargs h result h' :
      call cls args kwargs h = Ok (result, h') -> heap_step keep h h'
  | step_collect dead h :
      keep ∉ dead -> heap_step keep h (collect dead h).
End Interning.

(** A run of the cache: classes named by strings, arguments that are names
    or integers, every [__init__] accepting its arguments. *)
Definition example_init_args (cls : string) : list string :=
  if decide (cls = "Variable") then ["name"; "size"] else [].

Definition example_init (cls : string) (args : list (string + Z)) : res unit := Ok ().

Definition example_x3 : string * list (string + Z) := ("Variable", [inl "x"; inr 3%Z]).
Definition example_y4 : string * list (string + Z) := ("Variable", [inl "y"; inr 4%Z]).

Definition example_heap1 : @heap string (string + Z) _ _ _ _ :=
  mk_heap {[ example_x3 := 0 ]} 1.

Definition example_heap2 : @heap string (string + Z) _ _ _ _ :=
  mk_heap (<[ example_y4 := 1 ]> {[ example_x3 := 0 ]}) 2.
End ConsHash.

(* ------------------------------------------------------------------ *)
(** ** terms.py: Tensor instances

    A [torch.Tensor] hashes by [id], so the interning key of
    [Tensor(dims, data)] holds the dims by value and the data by
    identity, and every operation of torch returns a new object. *)

Module TensorHeap.
(** The arguments of [Tensor]: a tuple of dims, or the [id] of the data. *)
Definition arg : Type := list string + nat.

(** The interning cache and the [id] the next torch object receives. *)
Record world := mk_world {
  instances : @ConsHash.heap string arg _ _ _ _;
  next_data : nat
}.

(** A [Tensor] instance: its handle, its dims and the [id] of its data. *)
Record instance := mk_instance {
  handle : nat;
  i_dims : list string;
  i_data : nat
}.

(** The result of an operation of torch: a new tensor object. *)
Definition torch_result (w : world) : nat * world :=
  (next_data w, mk_world (instances w) (S (next_data w))).

(** [Tensor(dims, data)] through [ConsHashedMeta.__call__], for data of
    the shape that [dims] calls for. *)
Definition Tensor_call (ds : list string) (data : nat) (w : world)
    : res (instance * world) :=
  match ConsHash.call (fun _ => ["dims"; "data"]) (fun _ _ => Ok ())
          "Tensor" [inl ds; inr data] ∅ (instances w) with
  | Ok (r, h) => Ok (mk_instance r ds data, mk_world h (next_data w))
  | Raise e => Raise e
  end.

(** [Tensor.reduce(op, dims)] for an [op] of [ops.REDUCE_OP_TO_TORCH] and
    a set [dims]: which instance it returns. *)
Definition Tensor_reduce (self : instance) (A : gset string) (w : world)
    : res (instance * world) :=
  let self_dims : gset string := list_to_set (i_dims self) in
  let ds := self_dims ∩ A in
  if is_empty_set ds then Ok (self, w)
  else if bool_decide (ds = self_dims) then
    let '(data, w) := torch_result w in
    Tensor_call [] data w
  else
    let positions :=
      reverse (merge_sort Nat.le (omap (fun d => index_of d (i_dims self)) (elements ds))) in
    let '(data, w) :=
      fold_left (fun dw _ => torch_result dw.2) positions (i_data self, w) in
    Tensor_call (filter (fun d => d ∉ ds) (i_dims self)) data w.

(** [x = Tensor(("i", "j", "k"), data)], then
    [x.reduce(op, {"i"}).reduce(op, {"j"})] and [x.reduce(op, {"i", "j"})]. *)
Definition two_rounds_and_one : res (instance * instance) :=
  '(x, w) ← Tensor_call ["i"; "j"; "k"] 0 (mk_world (ConsHash.mk_heap ∅ 0) 1);
  '(y, w) ← Tensor_reduce x {[ "i" ]} w;
  '(r1, w) ← Tensor_reduce y {[ "j" ]} w;
  '(r2, w) ← Tensor_reduce x {[ "i"; "j" ]} w;
  Ok (r1, r2).
End TensorHeap.

(* ------------------------------------------------------------------ *)
(** ** engine.py: the trampoline handler *)

Module Trampoline.
Section Driver.
(** Scheduled functions and the values held in the queues.  A scheduled
    function is run by [apply]; the functions that [eval] schedules build
    nodes and do not schedule further calls. *)
Context {F V : Type}.
Variable apply : F -> list V -> list (string * V) -> res V.

(** The attributes of the handler object. *)
Record handler := mk_handler {
  _schedule : list (F * nat * nat);
  _args_queue : list V;
  _kwargs_queue : list (string * V);
  _returnvalue : option V
}.

(** [trampoline.__enter__] *)
Definition enter (self : handler) : handler :=
  mk_handler [] [] [] None.

(** [trampoline.process] of a [TailCall] message *)
Definition process_TailCall (fn : F) (args : list V) (kwargs : list (string * V))
    (self : handler) : handler :=
  mk_handler (_schedule self ++ [(fn, length args, length kwargs)])
             (_args_queue self ++ args)
             (_kwargs_queue self ++ kwargs)
             (_returnvalue self).

(** The [while self._schedule] loop of [__exit__]: the exception that
    ended it, if any, and the three lists as it left them.  A [pop(0)] on
    an empty queue raises after the entries before it were removed. *)
Fixpoint drain (schedule : list (F * nat * nat)) (aq : list V) (kq : list (string * V))
    : option exn * (list (F * nat * nat) * list V * list (string * V)) :=
  match schedule with
  | [] => (None, ([], aq, kq))
  | (fn, nargs, nkwargs) :: rest =>
      if decide (nargs <= length aq) then
        let args := take nargs aq in
        let aq := drop nargs aq in
        if decide (nkwargs <= length kq) then
          let kwargs := take nkwargs kq in
          let kq := drop nkwargs kq in
          match apply fn args kwargs with
          | Ok v => drain rest (aq ++ [v]) kq
          | Raise e => (Some e, (rest, aq, kq))
          end
        else (Some IndexError, (rest, aq, []))
      else (Some IndexError, (rest, [], kq))
  end.

(** [trampoline.__exit__]: the exception raised inside [__exit__], if
    any, and the handler afterwards.  The base class's [__exit__] does not
    touch these attributes. *)
Definition exit (exc_type : option exn) (self : handler) : option exn * handler :=
  match exc_type with
  | None =>
      match drain (_schedule self) (_args_queue self) (_kwargs_queue self) with
      | (Some e, (s, aq, kq)) => (Some e, mk_handler s aq kq (_returnvalue self))
      | (None, (s, aq, kq)) =>
          match aq with
          | [] => (Some IndexError, mk_handler s [] kq (_returnvalue self))
          | v :: aq' =>
              match aq', kq with
              | [], [] => (None, mk_handler s aq' kq (Some v))
              | _, _ => (Some AssertionError, mk_handler s aq' kq (Some v))
              end
          end
      end
  | Some _ => (None, mk_handler [] [] [] None)
  end.

(** [trampoline.__call__]: [with self: self.fn(...)] then
    [return self._returnvalue].  [body] is the decorated function run
    under the handler; its own return value is dropped. *)
Definition call (body : handler -> res unit * handler) (self : handler)
    : res (option V) * handler :=
  let self := enter self in
  match body self with
  | (Ok _, self) =>
      match exit None self with
      | (None, self) => (Ok (_returnvalue self), self)
      | (Some e, self) => (Raise e, self)
      end
  | (Raise e, self) =>
      match exit (Some e) self with
      | (None, self) => (Raise e, self)
      | (Some e', self) => (Raise e', self)
      end
  end.

Definition idle (self : handler) : Prop :=
  _schedule self = [] /\ _args_queue self = [] /\ _kwargs_queue self = [].
End Driver.

Arguments handler : clear implicits.
Arguments mk_handler {F V} _ _ _ _.

(** A decorated function that schedules two calls, the first of which
    fails when it is run. *)
Inductive example_fn := Boom | Bump.

Definition example_apply (fn : example_fn) (args : list nat) (kwargs : list (string * nat))
    : res nat :=
  match fn, args with
  | Boom, _ => Raise ValueError
  | Bump, [n] => Ok (S n)
  | Bump, _ => Raise AssertionError
  end.

Definition example_body (self : handler example_fn nat) : res unit * handler example_fn nat :=
  (Ok (), process_TailCall Bump [7] [] (process_TailCall Boom [] [] self)).

(** The handler holds exactly one scheduled call and its arguments. *)
Definition one_step {F V} (self : handler F V) : Prop :=
  exists fn args,
    _schedule self = [(fn, length args, 0)] /\
    _args_queue self = args /\
    _kwargs_queue self = [].
End Trampoline.

(* ------------------------------------------------------------------ *)
(** ** engine.py: eval under the trampoline *)

Module Engine.
Import Trampoline.

(** The constructors wrapped as [effectful(Cls, Cls)]. *)
Inductive effect :=
  | ETensor | ENormal | ENumber | EVariable | ESubstitution
  | EUnary | EBinary | EFinitary | EReduction.

(** Values that travel through the argument queue. *)
Inductive value :=
  | VTerm (t : term)
  | VOp (o : op)
  | VStr (s : string)
  | VInt (z : Z)
  | VType
  | VSize (sz : size)
  | VData (data : torch_Tensor)
  | VSet (A : gset string)
  | VTuple (vs : list value).

Definition as_term (v : value) : option term :=
  match v with VTerm t => Some t | _ => None end.

Definition as_str (v : value) : option string :=
  match v with VStr s => Some s | _ => None end.

Definition as_sub (v : value) : option (string * term) :=
  match v with
  | VTuple [VStr d; VTerm t] => Some (d, t)
  | _ => None
  end.

(** Modelled from the spec: funsor/handlers.py ([effectful], [Handler]) is
    not part of the sources.  Lazy/reflect is the default: with no other
    handler installed every effectful constructor simply builds the
    corresponding node. *)
Definition reflect (fn : effect) (args : list value) (kwargs : list (string * value))
    : res value :=
  match fn, args with
  | ETensor, [VTuple ds; VData data] =>
      match mapM as_str ds with
      | Some ds => Ok (VTerm (Tensor ds data))
      | None => Raise AssertionError
      end
  | ENormal, [VTerm loc; VTerm scale] =>
      Ok (VTerm (Normal [("loc", loc); ("scale", scale)] [] []))
  | ENumber, [VInt data; VType] => Ok (VTerm (Number data))
  | EVariable, [VStr name; VSize sz] => Ok (VTerm (Variable_ name sz))
  | ESubstitution, [VTerm arg; VTuple subs] =>
      match mapM as_sub subs with
      | Some subs => Ok (VTerm (Substitution arg subs))
      | None => Raise AssertionError
      end
  | EUnary, [VOp o; VTerm v] => Ok (VTerm (Unary o v))
  | EBinary, [VOp o; VTerm lhs; VTerm rhs] => Ok (VTerm (Binary o lhs rhs))
  | EFinitary, [VOp o; VTuple operands] =>
      match mapM as_term operands with
      | Some operands => Ok (VTerm (Finitary o operands))
      | None => Raise AssertionError
      end
  | EReduction, [VOp o; VTerm arg; VSet reduce_dims] => Ok (VTerm (Reduction o arg reduce_dims))
  | _, _ => Raise AssertionError
  end.

Section Eval.
(** The interpretation of the scheduled constructors by the installed
    handlers ([reflect] by default, [EagerEval] when it is installed). *)
Variable apply : effect -> list value -> list (string * value) -> res value.

Abbreviation handler := (Trampoline.handler effect value).
Abbreviation outcome := (res (option value) * handler)%type.

(** A nested call [eval(child)] made while the arguments of a tail call
    are computed; [None] is Python's [None]. *)
Definition nested (rec : term -> handler -> outcome) (child : term) (self : handler)
    : res value * handler :=
  match rec child self with
  | (Ok (Some v), self) => (Ok v, self)
  | (Ok None, self) => (Raise AssertionError, self)
  | (Raise e, self) => (Raise e, self)
  end.

(** [tuple(eval(tx) for tx in operands)] *)
Fixpoint nested_all (rec : term -> handler -> outcome) (children : list term)
    (self : handler) : res (list value) * handler :=
  match children with
  | [] => (Ok [], self)
  | c :: cs =>
      match nested rec c self with
      | (Ok v, self) =>
          match nested_all rec cs self with
          | (Ok vs, self) => (Ok (v :: vs), self)
          | (Raise e, self) => (Raise e, self)
          end
      | (Raise e, self) => (Raise e, self)
      end
  end.

(** [tuple((dim, eval(value)) for (dim, value) in x.subs)] *)
Fixpoint nested_subs (rec : term -> handler -> outcome) (subs : list (string * term))
    (self : handler) : res (list value) * handler :=
  match subs with
  | [] => (Ok [], self)
  | (d, c) :: cs =>
      match nested rec c self with
      | (Ok v, self) =>
          match nested_subs rec cs self with
          | (Ok vs, self) => (Ok (VTuple [VStr d; v] :: vs), self)
          | (Raise e, self) => (Raise e, self)
          end
      | (Raise e, self) => (Raise e, self)
      end
  end.

Definition _tail_call (fn : effect) (args : list value) (self : handler)
    : res unit * handler :=
  (Ok (), process_TailCall fn args [] self).

Definition param (name : string) (params : list (string * term)) : option term :=
  snd <$> head (filter (fun kv => kv.1 = name) params).

(** The body of the decorated function [eval]; [rec] is the global name
    [eval], that is, the trampoline object itself. *)
Definition eval_body (rec : term -> handler -> outcome) (x : term) (self : handler)
    : res unit * handler :=
  match x with
  | Tensor ds data => _tail_call ETensor [VTuple (VStr <$> ds); VData data] self
  | Normal params _ _ =>
      match param "loc" params, param "scale" params with
      | Some loc, Some scale =>
          match nested rec loc self with
          | (Ok l, self) =>
              match nested rec scale self with
              | (Ok s, self) => _tail_call ENormal [l; s] self
              | (Raise e, self) => (Raise e, self)
              end
          | (Raise e, self) => (Raise e, self)
          end
      | _, _ => (Raise KeyError, self)
      end
  | Number data => _tail_call ENumber [VInt data; VType] self
  | Variable_ name sz => _tail_call EVariable [VStr name; VSize sz] self
  | Substitution arg subs =>
      match nested rec arg self with
      | (Ok a, self) =>
          match nested_subs rec subs self with
          | (Ok ss, self) => _tail_call ESubstitution [a; VTuple ss] self
          | (Raise e, self) => (Raise e, self)
          end
      | (Raise e, self) => (Raise e, self)
      end
  | Unary _ _ =>
      (* eval(x.v): terms.py keeps the operand of a Unary as x.arg *)
      (Raise AttributeError, self)
  | Binary o lhs rhs =>
      match nested rec lhs self with
      | (Ok l, self) =>
          match nested rec rhs self with
          | (Ok r, self) => _tail_call EBinary [VOp o; l; r] self
          | (Raise e, self) => (Raise e, self)
          end
      | (Raise e, self) => (Raise e, self)
      end
  | Finitary o operands =>
      match nested_all rec operands self with
      | (Ok vs, self) => _tail_call EFinitary [VOp o; VTuple vs] self
      | (Raise e, self) => (Raise e, self)
      end
  | Reduction o arg reduce_dims =>
      match nested rec arg self with
      | (Ok a, self) => _tail_call EReduction [VOp o; a; VSet reduce_dims] self
      | (Raise e, self) => (Raise e, self)
      end
  | Align _ _ _ | Contract _ _ _ _ _ => (Raise NotImplementedError, self)
  end.

(** [eval(x)] with [frames] native stack frames left.  A call keeps two
    frames on the stack while the calls in its arguments ([eval(x.arg)],
    [eval(x.lhs)], ...) run: that of [trampoline.__call__] and that of the
    decorated function; the interpreter raises [RecursionError] when no
    frame is left.  What the interpreter counts on top of these two (the
    generator expressions over [x.subs] and [x.operands], the code of the
    handlers) is not modelled: a call that overflows here overflows in the
    interpreter, at this depth or before. *)
Fixpoint eval (frames : nat) (x : term) (self : handler) : outcome :=
  match frames with
  | 0 => (Raise RecursionError, self)
  | S frames1 =>
      call apply
        (fun self =>
           match frames1 with
           | 0 => (Raise RecursionError, self)
           | S frames2 => eval_body (eval frames2) x self
           end) self
  end.
End Eval.

(** [sys.getrecursionlimit()] of a stock interpreter. *)
Definition recursion_limit : nat := 1000.

(** [n] nested [Substitution] wraps around [x], each with the bindings
    [subs] ([()] for a call [x()] with no argument). *)
Fixpoint wraps (n : nat) (subs : list (string * term)) (x : term) : term :=
  match n with
  | 0 => x
  | S n' => Substitution (wraps n' subs x) subs
  end.

Definition fresh : Trampoline.handler effect value := mk_handler [] [] [] None.

(** The depth of the chain in the stack-safety property: 10,000. *)
Definition chain_depth : nat := 100 * 100.
End Engine.

(* ------------------------------------------------------------------ *)
(** ** engine.py: runs of the trampoline *)

Section DriverRuns.
Context {F V : Type}.
Variable apply : F -> list V -> list (string * V) -> res V.

(** The decorated function making the given tail calls, in order: each is
    a [TailCall] message handled by [trampoline.process]. *)
Definition schedule_all (calls : list (F * list V * list (string * V)))
    (self : Trampoline.handler F V) : Trampoline.handler F V :=
  fold_left (fun h c => Trampoline.process_TailCall c.1.1 c.1.2 c.2 h) calls self.

Definition scheduling_body (calls : list (F * list V * list (string * V)))
    (self : Trampoline.handler F V) : res unit * Trampoline.handler F V :=
  (Ok (), schedule_all calls self).

(** Every call run on the arguments it was scheduled with, in order: the
    results, or the first failure. *)
Fixpoint run_calls (calls : list (F * list V * list (string * V))) : res (list V) :=
  match calls with
  | [] => Ok []
  | (fn, args, kwargs) :: calls' =>
      v ← apply fn args kwargs;
      vs ← run_calls calls';
      Ok (v :: vs)
  end.
End DriverRuns.

(* ------------------------------------------------------------------ *)
(** ** engine.py: the terms eval walks *)

(** The nesting depth of a term along the children that [eval] visits
    before it schedules the node: none for [Tensor], [Number], [Variable]
    and for the classes it rejects. *)
Fixpoint height (x : term) : nat :=
  match x with
  | Variable_ _ _ | Number _ | Tensor _ _ => 0
  | Align _ _ _ | Contract _ _ _ _ _ => 0
  | Substitution arg subs =>
      S (foldr (fun dv h => Nat.max (height dv.2) h) (height arg) subs)
  | Unary _ arg => S (height arg)
  | Binary _ lhs rhs => S (Nat.max (height lhs) (height rhs))
  | Finitary _ operands => foldr (fun t h => Nat.max (S (height t)) h) 0 operands
  | Reduction _ arg _ => S (height arg)
  | Normal params _ _ => S (foldr (fun dv h => Nat.max (height dv.2) h) 0 params)
  end.

(** Terms made of the classes of terms.py that [eval] rebuilds from their
    evaluated parts.  Left out are [Align] and [Contract], which it does
    not handle, the distributions, whose constructor is outside the
    sources, and [Unary], whose operand engine.py reads as [x.v] while
    terms.py stores it as [arg]. *)
Fixpoint handled (x : term) : bool :=
  match x with
  | Variable_ _ _ | Number _ | Tensor _ _ => true
  | Substitution arg subs => handled arg && forallb (fun dv => handled dv.2) subs
  | Binary _ lhs rhs => handled lhs && handled rhs
  | Finitary _ operands => forallb handled operands
  | Reduction _ arg _ => handled arg
  | Unary _ _ | Align _ _ _ | Normal _ _ _ | Contract _ _ _ _ _ => false
  end.


(** The handler after a call of [eval] that returned [x]. *)
Definition returned (x : term) : Trampoline.handler Engine.effect Engine.value :=
  Trampoline.mk_handler [] [] [] (Some (Engine.VTerm x)).

(* ------------------------------------------------------------------ *)
(** ** terms.py: heaps the interning cache can be in *)

(** Handles in the cache were allocated, and no handle is cached under
    two keys. *)
Definition heap_ok {C A : Type} `{Countable C} `{Countable A}
    (h : @ConsHash.heap C A _ _ _ _) : Prop :=
  forall k v, ConsHash._cache h !! k = Some v ->
    v < ConsHash.next_id h /\
    forall k', ConsHash._cache h !! k' = Some v -> k' = k.

(* ------------------------------------------------------------------ *)
(** ** opteinsum_engine.py: paths as opt_einsum returns them *)

(** The loop header [for (a, b) in path] unpacks every element of the
    path.  opt_einsum returns tuples of positions, and a tuple that is not
    a pair raises [ValueError] when its turn comes. *)
Fixpoint run_raw_path (reduce_op finitary_op : op) (reduce_dims : gset string)
    (path : list (list nat)) (st : path_state) : res path_state :=
  match path with
  | [] => Ok st
  | [a; b] :: path' =>
      st' ← path_step reduce_op finitary_op reduce_dims st (a, b);
      run_raw_path reduce_op finitary_op reduce_dims path' st'
  | _ :: _ => Raise ValueError
  end.

(** [optimize_reduction] on [Finitary(finitary_op, arg_operands)], from
    the point where [greedy] has returned [path]. *)
Definition optimize_reduction_on (path : list (list nat)) (o finitary_op : op)
    (arg_operands : list term) (reduce_dims : gset string) : res term :=
  st ← run_raw_path o finitary_op reduce_dims path (initial_state arg_operands);
  (* reduce any remaining dims, if necessary *)
  let final := final_reduce_dims (ps_counter st) reduce_dims in
  match ps_path_end st with
  | None => Raise UnboundLocalError
  | Some path_end =>
      if is_empty_set final then Ok path_end
      else Ok (Reduction o path_end final)
  end.

(* ------------------------------------------------------------------ *)
(** ** terms.py: align *)

(** [Align.__init__], as run by a call [Align(arg, dims, shape)]:
    [arg.schema.get(d, s) == s] for every pair of [zip(dims, shape)]. *)
Definition Align_init (arg : term) (ds : list string) (sh : list size) : res term :=
  if forallb valid_size sh
     && forallb (fun d_s => bool_decide (default d_s.2 (schema_get d_s.1 (schema arg)) = d_s.2))
                (zip ds sh)
  then _ ← Funsor_init ds sh; Ok (Align arg ds sh)
  else Raise AssertionError.

(** [tuple(self.schema[d] for d in dims)] *)
Fixpoint sizes_of (s : schema_t) (ds : list string) : res (list size) :=
  match ds with
  | [] => Ok []
  | d :: ds' =>
      match schema_get d s with
      | Some v => vs ← sizes_of s ds'; Ok (v :: vs)
      | None => Raise KeyError
      end
  end.

(** The first lines of every [align]: with no [shape] given, [dims] must
    name the dims of [self], and the shape is read from its schema. *)
Definition derive_shape (self : term) (ds : list string) (sh : option (list size))
    : res (list size) :=
  match sh with
  | Some sh => Ok sh
  | None =>
      if bool_decide (list_to_set (C:=gset string) ds = list_to_set (dims self))
      then sizes_of (schema self) ds
      else Raise AssertionError
  end.

(** [Funsor.align] *)
Definition Funsor_align (self : term) (ds : list string) (sh : option (list size))
    : res term :=
  sh ← derive_shape self ds sh;
  if decide (ds = dims self) then
    if decide (sh = shape self) then Ok self else Raise AssertionError
  else Align_init self ds sh.

(** [data.permute(positions)] of torch, which is not part of the
    repository. *)
Class Layout := {
  torch_permute : torch_Tensor -> list nat -> res torch_Tensor
}.

(** [tuple(self.dims.index(d) for d in dims)] *)
Fixpoint positions (self_dims ds : list string) : res (list nat) :=
  match ds with
  | [] => Ok []
  | d :: ds' =>
      match index_of d self_dims with
      | Some p => ps ← positions self_dims ds'; Ok (p :: ps)
      | None => Raise ValueError
      end
  end.

(** [Tensor.align] *)
Definition Tensor_align `{Layout} (self : term) (self_dims : list string)
    (data : torch_Tensor) (ds : list string) (sh : option (list size)) : res term :=
  sh ← derive_shape self ds sh;
  if decide (ds = self_dims) then
    if decide (sh = shape self) then Ok self else Raise AssertionError
  else if bool_decide (list_to_set (C:=gset string) ds = list_to_set self_dims) then
    ps ← positions self_dims ds;
    data ← torch_permute data ps;
    Tensor_init ds data
  else Align_init self ds sh.  (* TODO unsqueeze and expand *)

(** [x.align(dims, shape)], dispatched on the class of [x]: [Align.align],
    [Tensor.align], and [Funsor.align] for the classes that do not
    override it. *)
Fixpoint align `{Layout} (x : term) (ds : list string) (sh : option (list size))
    : res term :=
  match x with
  | Align arg _ _ =>
      sh ← derive_shape x ds sh;
      align arg ds (Some sh)
  | Tensor self_dims data => Tensor_align x self_dims data ds sh
  | _ => Funsor_align x ds sh
  end.

(** A backend on which statements about lazy terms can be run: it has no
    [permute]. *)
Definition no_permute : Layout := {|
  torch_permute := fun _ _ => Raise RuntimeError
|}.

(* ================================================================== *)
(** * Properties *)

(* ------------------------------------------------------------------ *)
(** ** Canonicalization: the mixed case *)

Lemma forallb_false_of_elem {A} (f : A -> bool) (l : list A) (x : A) :
  x ∈ l -> f x = false -> forallb f l = false.
Proof.
  intros Hin Hx. destruct (forallb f l) eqn:E; [|done].
  rewrite forallb_forall in E. apply list_elem_of_In in Hin.
  rewrite (E x Hin) in Hx. done.
Qed.

(** C6. A [Finitary] whose operands mix a [Reduction] with a ground or
    [Finitary] operand is rejected by [deoptimize_finitary] with
    [NotImplementedError]; no rewrite case is picked. *)
Theorem deoptimize_finitary_mixed_raises (o : op) (operands : list term) (r g : term) :
  r ∈ operands -> is_Reduction r = true ->
  g ∈ operands -> is_Finitary g || is_GROUND_TERM g = true ->
  deoptimize_finitary o operands = Raise NotImplementedError.
Proof.
  intros Hr Hred Hg Hground. unfold deoptimize_finitary.
  rewrite (forallb_false_of_elem _ operands r Hr).
  2:{ destruct r; done. }
  rewrite (forallb_false_of_elem _ operands g Hg).
  2:{ destruct g; done. }
  rewrite (forallb_false_of_elem _ operands r Hr).
  2:{ destruct r; done. }
  done.
Qed.

Lemma deoptimize_finitary_mixed_raises_witness :
  deoptimize_finitary op_mul
    [Reduction op_add (Variable_ "i" (SInt 2)) {[ "i" ]}; Number 3]
  = Raise NotImplementedError.
Proof.
  apply (deoptimize_finitary_mixed_raises op_mul _
           (Reduction op_add (Variable_ "i" (SInt 2)) {[ "i" ]}) (Number 3)).
  - apply list_elem_of_here.
  - reflexivity.
  - apply list_elem_of_further, list_elem_of_here.
  - reflexivity.
Defined.

(* ------------------------------------------------------------------ *)
(** ** Contraction registry: the generic handlers *)

Lemma Contract_init_frozenset (sum_op prod_op : op) (lhs rhs : term) (D : gset string) :
  Contract_init sum_op prod_op lhs rhs (PFrozenset D) = Raise AssertionError.
Proof. reflexivity. Qed.

(** C7. The generic handlers for [(add, mul)] and [(logaddexp, add)] hand
    the frozenset of eliminated dims to [Contract] as its single [dim];
    the membership assertion of [Contract.__init__] then fails for every
    pair of operands, so no lazy [Contract] node is returned. *)
Theorem generic_contract_handlers_raise (lhs rhs : term) (reduce_dims : gset string) :
  _sumproduct lhs rhs reduce_dims = Raise AssertionError /\
  _logsumproductexp lhs rhs reduce_dims = Raise AssertionError.
Proof. split; apply Contract_init_frozenset. Qed.

(** The same through the registry, at two lazy operands sharing [j]. *)
Example contract_variables_raises :
  @contract zero_backend (op_add, op_mul)
    (Binary op_add (Variable_ "i" (SInt 3)) (Variable_ "j" (SInt 4)))
    (Binary op_add (Variable_ "j" (SInt 4)) (Variable_ "k" (SInt 5)))
    {[ "j" ]}
  = Raise AssertionError.
Proof. reflexivity. Qed.

(** With one dimension name, as the class is written, the node is built
    and its schema is the union of the operands' minus that name. *)
Example Contract_single_dim :
  dims <$> Contract_init op_add op_mul
    (Binary op_add (Variable_ "i" (SInt 3)) (Variable_ "j" (SInt 4)))
    (Binary op_add (Variable_ "j" (SInt 4)) (Variable_ "k" (SInt 5)))
    (PStr "j")
  = Ok ["i"; "k"].
Proof. vm_compute. reflexivity. Qed.

(* ------------------------------------------------------------------ *)
(** ** Reading a term as a scalar *)

(** C9, as stated, fails: a [Tensor] of shape [(1,)] is not
    zero-dimensional, yet [bool] and [item] read it through the backend. *)
Lemma one_element_tensor_read_as_scalar :
  shape tensor_one_entry <> [] /\
  bool_ tensor_one_entry = Ok true /\ item tensor_one_entry = Ok 5%Z.
Proof. vm_compute. split; [discriminate | split; reflexivity]. Qed.

Lemma Funsor_bool_nonscalar (x : term) :
  shape x <> [] -> Funsor_bool x = Raise ValueError.
Proof. unfold Funsor_bool. by destruct (shape x). Qed.

Lemma Funsor_item_nonscalar (x : term) :
  shape x <> [] -> Funsor_item x = Raise ValueError.
Proof. unfold Funsor_item. by destruct (shape x). Qed.

(** Lazy terms are rejected with [ValueError] by the base class. *)
Lemma lazy_nonscalar_ValueError (x : term) :
  shape x <> [] -> is_Tensor x = false ->
  bool_ x = Raise ValueError /\ item x = Raise ValueError.
Proof.
  intros Hshape Hlazy.
  pose proof (Funsor_bool_nonscalar x Hshape) as Hb.
  pose proof (Funsor_item_nonscalar x Hshape) as Hi.
  destruct x; try discriminate; split; assumption.
Qed.

(** C9 (amended). A term that is not zero-dimensional is rejected by both
    [bool] and [item], unless it is a [Tensor] whose data holds exactly
    one entry. *)
Theorem nonscalar_coercion_rejected (x : term) :
  shape x <> [] -> one_element_tensor x = false ->
  is_ok (bool_ x) = false /\ is_ok (item x) = false.
Proof.
  intros Hshape Hone.
  destruct (is_Tensor x) eqn:Ht.
  - destruct x; try discriminate. simpl in *.
    unfold torch_bool, torch_item.
    destruct (t_values data) as [|v [|w vs]]; simpl in *; done.
  - destruct (lazy_nonscalar_ValueError x Hshape Ht) as [-> ->]. done.
Qed.

Lemma nonscalar_coercion_rejected_witness :
  is_ok (bool_ tensor_two_entries) = false /\
  is_ok (item tensor_two_entries) = false.
Proof.
  apply (nonscalar_coercion_rejected tensor_two_entries).
  - vm_compute. discriminate.
  - reflexivity.
Defined.

(* ------------------------------------------------------------------ *)
(** ** reduce over no applicable dims *)

(** C10, as stated, fails on an [Align] view: [Align.reduce] hands the
    call to the wrapped term, so the wrapped term comes back, not the view. *)
Lemma align_reduce_returns_wrapped_term :
  ({[ "k" ]} : gset string) ∩ set_dims aligned_ij = ∅ /\
  @reduce zero_backend aligned_ij op_add (DSet {[ "k" ]}) = lazy_ji /\
  @reduce zero_backend aligned_ij op_add (DSet {[ "k" ]}) <> aligned_ij.
Proof. vm_compute. split; [reflexivity | split; [reflexivity | discriminate]]. Qed.

Section ReduceIdentity.
Context `{Backend}.

Lemma Funsor_reduce_disjoint (x : term) (o : op) (A : gset string) :
  A ∩ set_dims x = ∅ -> Funsor_reduce x o (DSet A) = x.
Proof.
  intros HA. unfold Funsor_reduce, is_empty_set. fold (set_dims x).
  rewrite HA. by rewrite bool_decide_eq_true_2.
Qed.

Lemma reduce_Reduction_same (o : op) (arg : term) (rd A : gset string) :
  reduce (Reduction o arg rd) o (DSet A)
  = Reduction o arg (rd ∪ (A ∩ set_dims (Reduction o arg rd))).
Proof. cbn [reduce]. by rewrite decide_True. Qed.

Lemma reduce_Reduction_other (o o' : op) (arg : term) (rd : gset string) (d : dims_arg) :
  o <> o' ->
  reduce (Reduction o' arg rd) o d = Funsor_reduce (Reduction o' arg rd) o d.
Proof. intros Hne. cbn [reduce]. by rewrite decide_False. Qed.

Lemma Tensor_reduce_disjoint (x : term) (data : torch_Tensor) (o : op)
    (A : gset string) :
  A ∩ set_dims x = ∅ ->
  Tensor_reduce x (dims x) data o (DSet A) = x.
Proof.
  intros HA. unfold Tensor_reduce.
  destruct (REDUCE_OP_TO_TORCH o); [|by apply Funsor_reduce_disjoint].
  cbn [frozenset]. fold (set_dims x). rewrite (comm_L (∩)), HA. unfold is_empty_set.
  by rewrite bool_decide_eq_true_2.
Qed.

(** C10 (amended). For a term that is not an [Align] view, [reduce] over
    a set of dims that misses all of its dims returns the term itself. *)
Theorem reduce_disjoint_identity (x : term) (o : op) (A : gset string) :
  is_Align x = false -> A ∩ set_dims x = ∅ -> reduce x o (DSet A) = x.
Proof.
  intros Hx HA.
  destruct x; try discriminate; try (by apply Funsor_reduce_disjoint).
  - (* Reduction *)
    destruct (decide (o = o0)) as [->|Hne].
    + rewrite reduce_Reduction_same, HA. by rewrite (right_id_L ∅ (∪)).
    + rewrite reduce_Reduction_other by done. by apply Funsor_reduce_disjoint.
  - (* Tensor *)
    by apply Tensor_reduce_disjoint.
Qed.
End ReduceIdentity.

Lemma reduce_disjoint_identity_witness :
  @reduce zero_backend lazy_ji op_add (DSet {[ "k" ]}) = lazy_ji.
Proof.
  apply (@reduce_disjoint_identity zero_backend).
  - reflexivity.
  - vm_compute. reflexivity.
Defined.

(* ------------------------------------------------------------------ *)
(** ** Reduction fusion *)

Lemma pair_sizes_keys (ds : list string) (sh : list size) :
  (pair_sizes ds sh).*1 = ds.
Proof.
  revert sh. induction ds as [|d ds IH]; intros sh; [done|].
  cbn. by rewrite IH.
Qed.

(** The keys of the schema are the dims. *)
Lemma schema_keys (x : term) : (schema x).*1 = dims x.
Proof. destruct x; try reflexivity; apply pair_sizes_keys. Qed.

Lemma set_dims_Reduction (o : op) (arg : term) (rd : gset string) :
  set_dims (Reduction o arg rd) = set_dims arg ∖ rd.
Proof.
  unfold set_dims. rewrite <- (schema_keys arg). unfold dims. cbn [schema].
  apply set_eq. intros d.
  rewrite elem_of_difference, !elem_of_list_to_set, !list_elem_of_fmap.
  split.
  - intros [[k v] [-> Hin]]. apply list_elem_of_filter in Hin as [Hk Hin].
    split; [by exists (k, v) | exact Hk].
  - intros [[[k v] [-> Hin]] Hk]. exists (k, v). split; [done|].
    apply list_elem_of_filter. by split.
Qed.

Lemma fuse_sets (A B S : gset string) :
  A ∩ S ∪ B ∩ (S ∖ (A ∩ S)) = (A ∪ B) ∩ S.
Proof. apply set_eq. intros d. destruct (decide (d ∈ A)); set_solver. Qed.

Lemma fuse_sets_disjoint (A B S : gset string) :
  A ∩ S = ∅ -> (A ∪ B) ∩ S = B ∩ S.
Proof. set_solver. Qed.

Section Fusion.
Context `{Backend}.
Variable o : op.

Lemma Funsor_reduce_fuse (x : term) (A B : gset string) :
  reduce (Funsor_reduce x o (DSet A)) o (DSet B) = Funsor_reduce x o (DSet (A ∪ B))
  \/ A ∩ set_dims x = ∅.
Proof.
  destruct (decide (A ∩ set_dims x = ∅)) as [HA|HA]; [by right|left].
  unfold Funsor_reduce at 1 2. fold (set_dims x). unfold is_empty_set.
  rewrite (bool_decide_eq_false_2 _ HA).
  rewrite bool_decide_eq_false_2 by (clear -HA; set_solver).
  rewrite reduce_Reduction_same, set_dims_Reduction.
  f_equal. apply fuse_sets.
Qed.

Lemma fusion_by_Funsor_reduce (x : term) (A B : gset string) :
  (forall d, reduce x o d = Funsor_reduce x o d) ->
  reduce (reduce x o (DSet A)) o (DSet B) = reduce x o (DSet (A ∪ B)).
Proof.
  intros Hx. rewrite (Hx (DSet A)), (Hx (DSet (A ∪ B))).
  destruct (Funsor_reduce_fuse x A B) as [E|HA]; [exact E|].
  rewrite Funsor_reduce_disjoint by exact HA. rewrite Hx.
  unfold Funsor_reduce. fold (set_dims x). by rewrite (fuse_sets_disjoint A B _ HA).
Qed.
Lemma Funsor_reduce_unnested (x : term) (o' : op) (d : dims_arg) :
  nested_reduction x = false ->
  (forall rd arg, x <> Reduction o' arg rd) ->
  nested_reduction (Funsor_reduce x o' d) = false.
Proof.
  intros Hx Hop. unfold Funsor_reduce. case_match; [exact Hx|].
  destruct x; try reflexivity.
  cbn. apply bool_decide_eq_false_2. intros ->. by eapply Hop.
Qed.

Lemma reduce_never_nests (x : term) (o' : op) (d : dims_arg) :
  nested_reduction (strip_align x) = false ->
  nested_reduction (reduce x o' d) = false.
Proof.
  induction x; intros Hx; cbn [strip_align] in Hx;
    try (apply Funsor_reduce_unnested; [exact Hx | intros; discriminate]).
  - (* Align *) cbn [reduce]. by apply IHx.
  - (* Reduction *)
    cbn [reduce]. destruct (decide (o' = o0)) as [->|Hne].
    + destruct x; try reflexivity. exact Hx.
    + apply Funsor_reduce_unnested; [exact Hx|]. intros rd arg [= -> _ _]. done.
  - (* Tensor *)
    cbn [reduce]. unfold Tensor_reduce.
    repeat case_match; try reflexivity.
    apply Funsor_reduce_unnested; [reflexivity | intros; discriminate].
Qed.

Lemma reduce_Tensor (ds : list string) (data : torch_Tensor) (d : dims_arg) :
  reduce (Tensor ds data) o d = Tensor_reduce (Tensor ds data) ds data o d.
Proof. reflexivity. Qed.

Section TensorCases.
Hypothesis in_table : REDUCE_OP_TO_TORCH o = true.
Variables (x : term) (ds : list string) (data : torch_Tensor) (A : gset string).

Lemma Tensor_reduce_none :
  list_to_set ds ∩ A = ∅ -> Tensor_reduce x ds data o (DSet A) = x.
Proof.
  intros Ha. unfold Tensor_reduce. rewrite in_table. cbn [frozenset].
  unfold is_empty_set. by rewrite bool_decide_eq_true_2.
Qed.

End TensorCases.

(** A [Tensor] none of whose dims is named is returned as it is, in both
    rounds. *)
Lemma Tensor_untouched (ds : list string) (data : torch_Tensor) (A B : gset string) :
  REDUCE_OP_TO_TORCH o = true ->
  list_to_set ds ∩ (A ∪ B) = ∅ ->
  reduce (reduce (Tensor ds data) o (DSet A)) o (DSet B)
  = reduce (Tensor ds data) o (DSet (A ∪ B)).
Proof.
  intros Hop Hnone. rewrite !(reduce_Tensor ds).
  rewrite (Tensor_reduce_none Hop _ ds data A) by (clear -Hnone; set_solver).
  rewrite reduce_Tensor.
  rewrite (Tensor_reduce_none Hop _ ds data B) by (clear -Hnone; set_solver).
  by rewrite (Tensor_reduce_none Hop _ ds data (A ∪ B)).
Qed.

(** C3 (amended). With the same [o], [x.reduce(o, A).reduce(o, B)] is the
    term [x.reduce(o, A ∪ B)], for all sets [A], [B], overlapping or not,
    and for every term [x] that is reduced lazily: [x], under its [Align]
    views, is not a [Tensor], or [o] is not an op that torch computes, or
    no dim of [x] is named.  And [reduce] never puts a [Reduction]
    directly over a [Reduction] with the same op. *)
Theorem reduce_fusion (x : term) (A B : gset string) :
  is_Tensor (strip_align x) = false \/
  REDUCE_OP_TO_TORCH o = false \/
  set_dims (strip_align x) ∩ (A ∪ B) = ∅ ->
  reduce (reduce x o (DSet A)) o (DSet B) = reduce x o (DSet (A ∪ B)) /\
  (forall (o' : op) (d : dims_arg),
     nested_reduction (strip_align x) = false ->
     nested_reduction (reduce x o' d) = false).
Proof.
  intros Hx. split; [|intros o' d; apply reduce_never_nests].
  induction x; cbn [strip_align] in Hx;
    try (apply fusion_by_Funsor_reduce; intros; reflexivity).
  - (* Align *) cbn [reduce]. by apply IHx.
  - (* Reduction *)
    destruct (decide (o = o0)) as [<-|Hne].
    + rewrite !reduce_Reduction_same, !set_dims_Reduction. f_equal.
      apply set_eq. intros d. destruct (decide (d ∈ A)); set_solver.
    + apply fusion_by_Funsor_reduce. intros d.
      by apply reduce_Reduction_other.
  - (* Tensor *)
    destruct (REDUCE_OP_TO_TORCH o) eqn:Hop.
    + destruct Hx as [Hx|[Hx|Hx]]; [discriminate|discriminate|].
      by apply Tensor_untouched.
    + apply fusion_by_Funsor_reduce. intros d.
      cbn [reduce]. unfold Tensor_reduce. by rewrite Hop.
Qed.
End Fusion.

Lemma reduce_fusion_witness :
  @reduce zero_backend (@reduce zero_backend x_ij op_add (DSet {[ "i" ]}))
    op_add (DSet {[ "j" ]})
  = @reduce zero_backend x_ij op_add (DSet ({[ "i" ]} ∪ {[ "j" ]})) /\
  (forall (o' : op) (d : dims_arg),
     nested_reduction (strip_align x_ij) = false ->
     nested_reduction (@reduce zero_backend x_ij o' d) = false).
Proof.
  apply (@reduce_fusion zero_backend op_add x_ij {[ "i" ]} {[ "j" ]}).
  left. reflexivity.
Defined.

(** C3, as stated, fails for a [Tensor] and an op that torch computes:
    every round builds a [Tensor] around the new object that torch
    returns, so [x.reduce(o, {"i"}).reduce(o, {"j"})] and
    [x.reduce(o, {"i", "j"})] are two instances with the same dims. *)
Theorem tensor_fusion_distinct_instances :
  exists r1 r2 : TensorHeap.instance,
    TensorHeap.two_rounds_and_one = Ok (r1, r2) /\
    TensorHeap.i_dims r1 = ["k"] /\ TensorHeap.i_dims r2 = ["k"] /\
    TensorHeap.handle r1 <> TensorHeap.handle r2.
Proof.
  eexists _, _. split; [vm_compute; reflexivity|].
  cbn. split; [reflexivity|]. split; [reflexivity|]. lia.
Qed.

(** The law at work on lazy terms: disjoint and overlapping sets. *)
Example fusion_lazy_disjoint :
  @reduce zero_backend (@reduce zero_backend x_ij op_add (DSet {[ "i" ]})) op_add (DSet {[ "j" ]})
  = Reduction op_add x_ij {[ "i"; "j" ]}.
Proof. vm_compute. reflexivity. Qed.

Example fusion_lazy_overlapping :
  @reduce zero_backend (@reduce zero_backend x_ij op_add (DSet {[ "i"; "j" ]})) op_add
    (DSet {[ "j"; "k" ]})
  = Reduction op_add x_ij {[ "i"; "j" ]}.
Proof. vm_compute. reflexivity. Qed.

(* ------------------------------------------------------------------ *)
(** ** Interning *)

Section InterningProps.
Context {C A : Type} `{Countable C} `{Countable A}.
Variable init_args : C -> list string.
Variable init : C -> list A -> res unit.

Abbreviation call := (ConsHash.call init_args init).
Abbreviation canonical_args := (ConsHash.canonical_args init_args).
Abbreviation heap_step := (ConsHash.heap_step init_args init).

(** A call whose key is in the cache returns the cached instance and
    leaves the heap as it is. *)
Lemma call_cached (cls : C) (args : list A) (kwargs : gmap string A) (key : list A)
    (h : ConsHash.heap) (r : nat) :
  canonical_args cls args kwargs = Ok key ->
  ConsHash._cache h !! (cls, key) = Some r ->
  call cls args kwargs h = Ok (r, h).
Proof.
  intros Hkey Hc. unfold ConsHash.call. rewrite Hkey. cbn. by rewrite Hc.
Qed.

(** After a successful call the returned instance is cached under the key. *)
Lemma call_caches (cls : C) (args : list A) (kwargs : gmap string A) (key : list A)
    (h h' : ConsHash.heap) (r : nat) :
  canonical_args cls args kwargs = Ok key ->
  call cls args kwargs h = Ok (r, h') ->
  ConsHash._cache h' !! (cls, key) = Some r.
Proof.
  intros Hkey. unfold ConsHash.call. rewrite Hkey. cbn.
  destruct (ConsHash._cache h !! (cls, key)) as [r0|] eqn:Hc.
  - intros [= <- <-]. exact Hc.
  - destruct (init cls key); cbn; [|discriminate].
    intros [= <- <-]. cbn. by rewrite lookup_insert_eq.
Qed.

(** A call never replaces a cached instance. *)
Lemma call_keeps (cls : C) (args : list A) (kwargs : gmap string A)
    (h h' : ConsHash.heap) (r : nat) (k : C * list A) (v : nat) :
  call cls args kwargs h = Ok (r, h') ->
  ConsHash._cache h !! k = Some v ->
  ConsHash._cache h' !! k = Some v.
Proof.
  unfold ConsHash.call.
  destruct (canonical_args cls args kwargs) as [key|]; cbn; [|discriminate].
  destruct (ConsHash._cache h !! (cls, key)) as [r0|] eqn:Hc.
  - by intros [= <- <-].
  - destruct (init cls key); cbn; [|discriminate].
    intros [= <- <-] Hk. cbn. rewrite lookup_insert_ne; [exact Hk|].
    intros <-. rewrite Hc in Hk. discriminate.
Qed.

Lemma heap_step_keeps (keep : nat) (h h' : ConsHash.heap) (k : C * list A) :
  heap_step keep h h' ->
  ConsHash._cache h !! k = Some keep ->
  ConsHash._cache h' !! k = Some keep.
Proof.
  intros [cls args kwargs h0 r h0' Hcall | dead h0 Hlive] Hk.
  - eapply call_keeps; [exact Hcall | exact Hk].
  - cbn. apply map_lookup_filter_Some. split; [exact Hk | exact Hlive].
Qed.

Lemma heap_steps_keep (keep : nat) (h h' : ConsHash.heap) (k : C * list A) :
  rtc (heap_step keep) h h' ->
  ConsHash._cache h !! k = Some keep ->
  ConsHash._cache h' !! k = Some keep.
Proof.
  induction 1 as [|h1 h2 h3 Hstep _ IH]; [done|].
  intros Hk. apply IH. by eapply heap_step_keeps.
Qed.

(** [Number(data)] is the call [Number(data, type(data))]. *)
Lemma AddTypeMeta_call_default (type : A -> A) (cls : C) (data : A) (h : ConsHash.heap) :
  ConsHash.AddTypeMeta_call init_args init type cls data None h
  = ConsHash.AddTypeMeta_call init_args init type cls data (Some (type data)) h.
Proof. reflexivity. Qed.

(** C4. Two construction calls of one class whose arguments canonicalize
    to the same key return the same instance, whatever other
    constructions (and collections of other instances) happen between the
    two call sites; the second call leaves the heap unchanged. *)
Theorem interning_same_instance (cls : C) (args1 args2 : list A) (kwargs1 kwargs2 : gmap string A)
    (key : list A) (h h1 h2 : ConsHash.heap) (r : nat) :
  canonical_args cls args1 kwargs1 = Ok key ->
  canonical_args cls args2 kwargs2 = Ok key ->
  call cls args1 kwargs1 h = Ok (r, h1) ->
  rtc (heap_step r) h1 h2 ->
  call cls args2 kwargs2 h2 = Ok (r, h2).
Proof.
  intros Hk1 Hk2 Hcall Hsteps.
  apply (call_cached _ _ _ key); [exact Hk2|].
  eapply heap_steps_keep; [exact Hsteps|].
  eapply call_caches; [exact Hk1 | exact Hcall].
Qed.
End InterningProps.

Lemma interning_witness :
  ConsHash.call ConsHash.example_init_args ConsHash.example_init
    "Variable" [] {[ "name" := inl "x"; "size" := inr 3%Z ]} ConsHash.example_heap2
  = Ok (0, ConsHash.example_heap2).
Proof.
  apply (interning_same_instance ConsHash.example_init_args ConsHash.example_init
           "Variable" [inl "x"; inr 3%Z] [] ∅ {[ "name" := inl "x"; "size" := inr 3%Z ]}
           [inl "x"; inr 3%Z] (ConsHash.mk_heap ∅ 0) ConsHash.example_heap1).
  - reflexivity.
  - vm_compute. reflexivity.
  - vm_compute. reflexivity.
  - eapply rtc_l; [|apply rtc_refl].
    apply (ConsHash.step_call _ _ 0 "Variable" [inl "y"; inr 4%Z] ∅ _ 1).
    vm_compute. reflexivity.
Defined.

(* ------------------------------------------------------------------ *)
(** ** The optimizer: counters *)

Lemma counter_get_insert (c : gmap ckey Z) (k k' : ckey) (v : Z) :
  counter_get (<[k := v]> c) k' = if decide (k = k') then v else counter_get c k'.
Proof.
  unfold counter_get. destruct (decide (k = k')) as [->|Hne].
  - by rewrite lookup_insert_eq.
  - by rewrite lookup_insert_ne.
Qed.

(** [subtract] only touches the keys it is given. *)
Lemma counter_subtract_other (c : gmap ckey Z) (elems : list ckey) (k : ckey) :
  k ∉ elems -> counter_get (counter_subtract c elems) k = counter_get c k.
Proof.
  revert c. induction elems as [|e elems IH]; intros c Hk; [done|].
  cbn [counter_subtract fold_left]. apply not_elem_of_cons in Hk as [Hne Hk].
  fold (counter_subtract (<[e := (counter_get c e - 1)%Z]> c) elems).
  rewrite IH by exact Hk. rewrite counter_get_insert. by rewrite decide_False.
Qed.

(** The pairs [(d, 1)] are not dimension names. *)
Lemma counter_subtract_KDim (c : gmap ckey Z) (ds : list string) (d : string) :
  counter_get (counter_subtract c ((fun d => KPair d 1) <$> ds)) (KDim d)
  = counter_get c (KDim d).
Proof.
  apply counter_subtract_other. intros Hin.
  apply list_elem_of_fmap in Hin as [d' [Hd' _]]. discriminate.
Qed.

Lemma counter_update_ones_ge (c : gmap ckey Z) (keys : list ckey) (k : ckey) :
  (counter_get c k <= counter_get (counter_update_ones c keys) k)%Z.
Proof.
  revert c. induction keys as [|e keys IH]; intros c; [done|].
  cbn [counter_update_ones fold_left].
  fold (counter_update_ones (<[e := (counter_get c e + 1)%Z]> c) keys).
  etrans; [|apply IH]. rewrite counter_get_insert.
  destruct (decide (e = k)) as [->|]; lia.
Qed.

Lemma counter_update_ones_gt (c : gmap ckey Z) (keys : list ckey) (k : ckey) :
  k ∈ keys -> (counter_get c k < counter_get (counter_update_ones c keys) k)%Z.
Proof.
  revert c. induction keys as [|e keys IH]; intros c Hk; [by apply elem_of_nil in Hk|].
  cbn [counter_update_ones fold_left].
  fold (counter_update_ones (<[e := (counter_get c e + 1)%Z]> c) keys).
  destruct (decide (e = k)) as [->|Hne].
  - eapply Z.lt_le_trans; [|apply counter_update_ones_ge].
    rewrite counter_get_insert, decide_True by done. lia.
  - apply elem_of_cons in Hk as [->|Hk]; [done|].
    eapply Z.le_lt_trans; [|apply IH; exact Hk].
    rewrite counter_get_insert, decide_False by done. lia.
Qed.

Lemma initial_counter_from (c : gmap ckey Z) (inputs : list (gset string)) (d : string) :
  (counter_get c (KDim d)
   <= counter_get (fold_left (fun c input => counter_update_ones c (KDim <$> elements input))
                     inputs c) (KDim d))%Z /\
  (d ∈ ⋃ inputs ->
   (counter_get c (KDim d)
    < counter_get (fold_left (fun c input => counter_update_ones c (KDim <$> elements input))
                     inputs c) (KDim d))%Z).
Proof.
  revert c. induction inputs as [|input inputs IH]; intros c.
  - split; [done|]. cbn. set_solver.
  - cbn [fold_left]. destruct (IH (counter_update_ones c (KDim <$> elements input))) as [IH1 IH2].
    pose proof (counter_update_ones_ge c (KDim <$> elements input) (KDim d)) as Hge.
    split; [lia|]. cbn [union_list foldr]. intros [Hd|Hd]%elem_of_union.
    + eapply Z.lt_le_trans; [|exact IH1]. apply counter_update_ones_gt.
      apply list_elem_of_fmap. exists d. split; [done|]. by apply elem_of_elements.
    + specialize (IH2 Hd). lia.
Qed.

(** Every dimension of some input starts with a positive count. *)
Lemma initial_counter_positive (inputs : list (gset string)) (d : string) :
  d ∈ ⋃ inputs -> (0 < counter_get (initial_counter inputs) (KDim d))%Z.
Proof.
  intros Hd. destruct (initial_counter_from ∅ inputs d) as [_ Hlt].
  specialize (Hlt Hd). unfold initial_counter.
  unfold counter_get in Hlt at 1. rewrite lookup_empty in Hlt. exact Hlt.
Qed.

(* ------------------------------------------------------------------ *)
(** ** The optimizer: dims of the rebuilt terms *)

Lemma schema_set_keys (d : string) (v : size) (s : schema_t) :
  list_to_set (C:=gset string) (schema_set d v s).*1 = {[ d ]} ∪ list_to_set s.*1.
Proof.
  induction s as [|[k w] s IH]; cbn [schema_set].
  - cbn. set_solver.
  - destruct (decide (k = d)) as [->|Hne]; cbn [fmap list_fmap fst list_to_set].
    + set_solver.
    + rewrite IH. set_solver.
Qed.

Lemma schema_update_keys (s other : schema_t) :
  list_to_set (C:=gset string) (schema_update s other).*1
  = list_to_set s.*1 ∪ list_to_set other.*1.
Proof.
  unfold schema_update. revert s.
  induction other as [|[k w] other IH]; intros s; cbn [fold_left].
  - cbn. set_solver.
  - rewrite IH, schema_set_keys. cbn [fmap list_fmap fst list_to_set]. set_solver.
Qed.

(** A pairwise step mentions the dims of its two operands. *)
Lemma set_dims_Finitary_pair (o : op) (ta tb : term) :
  set_dims (Finitary o [ta; tb]) = set_dims ta ∪ set_dims tb.
Proof.
  unfold set_dims at 1. unfold dims. cbn [schema map]. unfold Finitary_schema.
  cbn [fold_left].
  rewrite !schema_update_keys, !schema_keys. cbn. unfold set_dims. set_solver.
Qed.

Lemma set_dims_step (ro fo : op) (ta tb : term) :
  set_dims (Reduction ro (Finitary fo [ta; tb]) ∅) = set_dims ta ∪ set_dims tb.
Proof. rewrite set_dims_Reduction, set_dims_Finitary_pair. set_solver. Qed.

(* ------------------------------------------------------------------ *)
(** ** The optimizer: one step of the path *)

Lemma elem_of_delete {A} (l : list A) (i : nat) (x : A) :
  x ∈ delete i l -> x ∈ l.
Proof.
  rewrite delete_take_drop. intros [Hx|Hx]%elem_of_app.
  - rewrite <- (take_drop i l). apply elem_of_app. by left.
  - rewrite <- (take_drop (S i) l). apply elem_of_app. by right.
Qed.

Lemma elem_of_insert_inv {A} (l : list A) (i : nat) (x y : A) :
  y ∈ <[i := x]> l -> y = x \/ y ∈ l.
Proof.
  intros [j Hj]%list_elem_of_lookup. destruct (decide (i = j)) as [->|Hne].
  - destruct (decide (j < length l)) as [Hlt|Hge].
    + rewrite list_lookup_insert_eq in Hj by exact Hlt. left. congruence.
    + rewrite list_insert_id' in Hj by lia. right. apply list_elem_of_lookup. by exists j.
  - rewrite list_lookup_insert_ne in Hj by exact Hne.
    right. apply list_elem_of_lookup. by exists j.
Qed.

(** What a successful iteration did. *)
Lemma path_step_inv (ro fo : op) (D : gset string) (st st' : path_state) (a b : nat) :
  path_step ro fo D st (a, b) = Ok st' ->
  exists ta tb c2 S,
    ps_operands st !! a = Some ta /\
    ps_operands st !! b = Some tb /\
    a < length (delete b (ps_operands st)) /\
    (forall d, counter_get c2 (KDim d) = counter_get (ps_counter st) (KDim d)) /\
    S = filter (fun d => counter_get c2 (KDim d) = 0%Z) (D ∩ (set_dims ta ∪ set_dims tb)) /\
    st' = mk_path_state (<[a := Reduction ro (Finitary fo [ta; tb]) S]> (delete b (ps_operands st)))
            c2 (Some (Reduction ro (Finitary fo [ta; tb]) S)).
Proof.
  unfold path_step.
  destruct (ps_operands st !! a) as [ta|] eqn:Ha; [|discriminate].
  destruct (ps_operands st !! b) as [tb|] eqn:Hb; [|discriminate].
  case_decide as Hlen; [|discriminate].
  intros [= <-]. eexists ta, tb, _, _.
  split; [done|]. split; [done|]. split; [done|].
  split; [|split; reflexivity].
  intros d. by rewrite !counter_subtract_KDim.
Qed.

Lemma path_step_invariant (ro fo : op) (D U : gset string) (c0 : gmap ckey Z)
    (st st' : path_state) (ab : nat * nat) :
  (forall d, d ∈ U -> (0 < counter_get c0 (KDim d))%Z) ->
  path_invariant U c0 st ->
  path_step ro fo D st ab = Ok st' ->
  path_invariant U c0 st'.
Proof.
  intros Hpos (Hc & Hops & _) Hstep. destruct ab as [a b].
  apply path_step_inv in Hstep as (ta & tb & c2 & S & Ha & Hb & Hlen & Hc2 & HS & ->).
  assert (set_dims ta ⊆ U) as Hta.
  { apply Hops, list_elem_of_lookup. by exists a. }
  assert (set_dims tb ⊆ U) as Htb.
  { apply Hops, list_elem_of_lookup. by exists b. }
  assert (S = ∅) as HS0.
  { rewrite HS. apply set_eq. intros d. rewrite elem_of_filter. split; [|set_solver].
    intros [Hzero Hd]. assert (d ∈ U) as HdU by set_solver.
    specialize (Hpos d HdU). rewrite Hc2, Hc in Hzero. lia. }
  rewrite HS0. clear HS. split; [|split]; cbn.
  - intros d. by rewrite Hc2.
  - intros t [->|Ht]%elem_of_insert_inv.
    + rewrite set_dims_step. set_solver.
    + by apply Hops, (elem_of_delete _ b).
  - reflexivity.
Qed.

Lemma run_path_invariant (ro fo : op) (D U : gset string) (c0 : gmap ckey Z)
    (path : list (nat * nat)) (st st' : path_state) :
  (forall d, d ∈ U -> (0 < counter_get c0 (KDim d))%Z) ->
  path_invariant U c0 st ->
  run_path ro fo D path st = Ok st' ->
  path_invariant U c0 st'.
Proof.
  intros Hpos. revert st. induction path as [|ab path IH]; intros st Hinv; cbn [run_path].
  - by intros [= <-].
  - destruct (path_step ro fo D st ab) as [st1|] eqn:Hstep; cbn; [|discriminate].
    apply IH. by eapply path_step_invariant.
Qed.

Lemma elem_of_union_list_dims (ts : list term) (d : string) :
  d ∈ ⋃ (set_dims <$> ts) <-> exists t, t ∈ ts /\ d ∈ set_dims t.
Proof.
  rewrite elem_of_union_list. split.
  - intros (X & [t [-> Ht]]%list_elem_of_fmap & Hd). by exists t.
  - intros (t & Ht & Hd). exists (set_dims t). split; [|done].
    apply list_elem_of_fmap. by exists t.
Qed.

Lemma initial_state_invariant (operands : list term) :
  path_invariant (⋃ (set_dims <$> operands)) (initial_counter (set_dims <$> operands))
    (initial_state operands).
Proof.
  split; [done|]. split; [|done].
  intros t Ht d Hd. apply elem_of_union_list_dims. by exists t.
Qed.

(** The state after any number of iterations, on any path whatever,
    satisfies the invariant. *)
Lemma prefix_invariant (ro fo : op) (D : gset string) (operands : list term)
    (path : list (nat * nat)) (st : path_state) :
  run_path ro fo D path (initial_state operands) = Ok st ->
  path_invariant (⋃ (set_dims <$> operands)) (initial_counter (set_dims <$> operands)) st.
Proof.
  apply run_path_invariant.
  - intros d Hd. by apply initial_counter_positive.
  - apply initial_state_invariant.
Qed.

(** No pairwise step reduces anything: the counts of the dimension names
    never move, so none is zero when a step is built. *)
Lemma steps_reduce_nothing (ro fo : op) (D : gset string) (operands : list term)
    (path : list (nat * nat)) (st : path_state) :
  run_path ro fo D path (initial_state operands) = Ok st ->
  step_reduce_dims st = ∅.
Proof. intros Hrun. by apply prefix_invariant in Hrun as (_ & _ & ?). Qed.

(** C2. After any number of iterations of the loop over the path, a
    dimension that the step just built reduces has a zero counter and is
    mentioned by no operand still waiting to be combined: no dimension is
    reduced before every operand mentioning it has been folded in. *)
Theorem no_early_retirement (ro fo : op) (D : gset string) (operands : list term)
    (path : list (nat * nat)) (k : nat) :
  is_ok (run_path ro fo D (take k path) (initial_state operands)) = true ->
  exists st,
    run_path ro fo D (take k path) (initial_state operands) = Ok st /\
    retires_only_when_folded st.
Proof.
  destruct (run_path ro fo D (take k path) (initial_state operands)) as [st|] eqn:Hrun;
    [intros _|discriminate].
  exists st. split; [reflexivity|].
  intros d Hd. rewrite (steps_reduce_nothing _ _ _ _ _ _ Hrun) in Hd.
  by apply elem_of_empty in Hd.
Qed.

Lemma no_early_retirement_witness :
  exists st,
    run_path op_add op_mul {[ "j"; "k" ]} (take 1 [(0, 1); (0, 1)])
      (initial_state [x_ij; x_jk; x_kl]) = Ok st /\
    retires_only_when_folded st.
Proof.
  apply (no_early_retirement op_add op_mul {[ "j"; "k" ]} [x_ij; x_jk; x_kl]
           [(0, 1); (0, 1)] 1).
  vm_compute. reflexivity.
Defined.

(** After the first step no waiting operand mentions [j] any more, and
    yet the step does not reduce it: it is left to the trailing Reduction. *)
Example first_step_reduces_nothing :
  step_reduce_dims <$> run_path op_add op_mul {[ "j" ]} [(0, 1)]
                         (initial_state [x_ij; x_jk; x_kl])
  = Ok ∅.
Proof. vm_compute. reflexivity. Qed.

(* ------------------------------------------------------------------ *)
(** ** The optimizer: a valid path eliminates all of D *)

(** Replacing two operands by a term with their dims keeps the dims of
    the whole list. *)
Lemma union_after_step (l : list term) (a b : nat) (ta tb pe : term) :
  a < b -> l !! a = Some ta -> l !! b = Some tb ->
  set_dims pe = set_dims ta ∪ set_dims tb ->
  ⋃ (set_dims <$> <[a := pe]> (delete b l)) = ⋃ (set_dims <$> l).
Proof.
  intros Hab Ha Hb Hpe.
  assert (b < length l) as Hbl by (by eapply lookup_lt_Some).
  assert (a < length (delete b l)) as Hal by (rewrite length_delete by eauto; lia).
  apply set_eq. intros d. rewrite !elem_of_union_list_dims. split.
  - intros (t & [->|Ht]%elem_of_insert_inv & Hd).
    + rewrite Hpe in Hd. apply elem_of_union in Hd as [Hd|Hd].
      * exists ta. split; [|done]. apply list_elem_of_lookup. by exists a.
      * exists tb. split; [|done]. apply list_elem_of_lookup. by exists b.
    + exists t. split; [|done]. by apply (elem_of_delete _ b).
  - intros (t & [i Hi]%list_elem_of_lookup & Hd).
    destruct (decide (i = a \/ i = b)) as [Hi'|Hi'].
    + exists pe. split; [by apply list_elem_of_insert|].
      rewrite Hpe. destruct Hi' as [-> | ->]; set_solver.
    + exists t. split; [|done]. apply list_elem_of_lookup.
      destruct (decide (i < b)) as [Hlt|Hge].
      * exists i. rewrite list_lookup_insert_ne by lia.
        by rewrite list_lookup_delete_lt.
      * exists (i - 1). rewrite list_lookup_insert_ne by lia.
        rewrite list_lookup_delete_ge by lia.
        replace (S (i - 1)) with i by lia. exact Hi.
Qed.

(** On a valid path the loop runs to its end and leaves the last step as
    the only operand, with the dims of all the operands it started from. *)
Lemma run_valid_path (ro fo : op) (D U : gset string) (c0 : gmap ckey Z)
    (path : list (nat * nat)) (st : path_state) :
  (forall d, d ∈ U -> (0 < counter_get c0 (KDim d))%Z) ->
  path_invariant U c0 st ->
  valid_path (length (ps_operands st)) path = true ->
  exists st',
    run_path ro fo D path st = Ok st' /\
    length (ps_operands st') = 1 /\
    ⋃ (set_dims <$> ps_operands st') = ⋃ (set_dims <$> ps_operands st) /\
    (path <> [] -> exists pe, ps_path_end st' = Some pe /\ pe ∈ ps_operands st').
Proof.
  intros Hpos. revert st. induction path as [|[a b] path IH]; intros st Hinv Hvalid.
  - cbn in Hvalid. apply bool_decide_eq_true in Hvalid.
    exists st. by repeat split.
  - cbn [valid_path] in Hvalid. apply andb_true_iff in Hvalid as [Hab Hvalid].
    apply bool_decide_eq_true in Hab as [Hab Hbn].
    destruct (lookup_lt_is_Some_2 (ps_operands st) a) as [ta Ha]; [lia|].
    destruct (lookup_lt_is_Some_2 (ps_operands st) b) as [tb Hb]; [lia|].
    assert (length (delete b (ps_operands st)) = length (ps_operands st) - 1) as Hlen.
    { rewrite length_delete by eauto. lia. }
    destruct (path_step ro fo D st (a, b)) as [st1|e] eqn:Hstep.
    2:{ exfalso. unfold path_step in Hstep. rewrite Ha, Hb in Hstep.
        rewrite decide_True in Hstep by lia. discriminate. }
    pose proof (path_step_invariant _ _ _ _ _ _ _ _ Hpos Hinv Hstep) as Hinv1.
    pose proof Hstep as Hstep'.
    apply path_step_inv in Hstep' as (ta' & tb' & c2 & S & Ha' & Hb' & _ & _ & _ & Hst1).
    rewrite Ha in Ha'. rewrite Hb in Hb'. injection Ha' as <-. injection Hb' as <-.
    assert (S = ∅) as ->.
    { destruct Hinv1 as (_ & _ & HS). rewrite Hst1 in HS. exact HS. }
    assert (length (ps_operands st1) = length (ps_operands st) - 1) as Hlen1.
    { rewrite Hst1. cbn. by rewrite length_insert. }
    destruct (IH st1 Hinv1) as (st' & Hrun & Hone & Hcover & Hpe).
    { by rewrite Hlen1. }
    exists st'. cbn [run_path]. rewrite Hstep. cbn. split; [exact Hrun|].
    split; [exact Hone|]. split.
    + rewrite Hcover, Hst1. cbn [ps_operands].
      apply (union_after_step _ a b ta tb); try done. apply set_dims_step.
    + intros _. destruct path as [|ab path]; [|by apply Hpe].
      cbn in Hrun. injection Hrun as <-. rewrite Hst1. cbn.
      eexists. split; [reflexivity|]. apply list_elem_of_insert. lia.
Qed.

Lemma final_reduce_dims_spec (c : gmap ckey Z) (D : gset string) (d : string) :
  d ∈ final_reduce_dims c D <-> (0 < counter_get c (KDim d))%Z /\ d ∈ D.
Proof.
  unfold final_reduce_dims. rewrite elem_of_intersection, elem_of_list_to_set.
  rewrite list_elem_of_omap. unfold counter_get. split.
  - intros [([k count] & Hin & Hsome) Hd]. split; [|done].
    apply elem_of_map_to_list in Hin.
    destruct k as [d'|]; [|discriminate]. case_decide; [|discriminate].
    injection Hsome as ->. by rewrite Hin.
  - intros [Hpos Hd]. split; [|done].
    destruct (c !! KDim d) as [count|] eqn:Hc; cbn in Hpos; [|lia].
    exists (KDim d, count). split; [by apply elem_of_map_to_list|].
    by rewrite decide_True.
Qed.

(** C1. When the path computed for a [Reduction] over a [Finitary] of two
    or more operands is a valid pairwise path, [optimize_reduction]
    returns a term whose dims are those of the operands minus [D]; every
    dimension of [D] that occurs in an operand is eliminated by the
    trailing [Reduction] over the last combined step. *)
Theorem optimize_reduction_eliminates `{PathOptimizer} (o fo : op)
    (operands : list term) (D : gset string) :
  2 <= length operands ->
  valid_path (length operands) (optimizer_path operands D) = true ->
  exists t,
    optimize_reduction o (Finitary fo operands) D = Ok t /\
    set_dims t = ⋃ (set_dims <$> operands) ∖ D /\
    (forall d, d ∈ D -> d ∈ ⋃ (set_dims <$> operands) ->
       exists path_end final,
         t = Reduction o path_end final /\ d ∈ final /\
         set_dims path_end = ⋃ (set_dims <$> operands)).
Proof.
  intros Hn Hvalid.
  set (U := ⋃ (set_dims <$> operands)).
  set (c0 := initial_counter (set_dims <$> operands)).
  assert (forall d, d ∈ U -> (0 < counter_get c0 (KDim d))%Z) as Hpos.
  { intros d Hd. by apply initial_counter_positive. }
  destruct (run_valid_path o fo D U c0 (optimizer_path operands D) (initial_state operands)
              Hpos (initial_state_invariant operands) Hvalid)
    as (st & Hrun & Hone & Hcover & Hpe).
  destruct Hpe as (pe & Hend & Hin).
  { intros E. rewrite E in Hvalid. cbn in Hvalid.
    apply bool_decide_eq_true in Hvalid. lia. }
  assert (ps_operands st = [pe]) as Hops.
  { destruct (ps_operands st) as [|t [|t' l]]; try discriminate.
    apply list_elem_of_singleton in Hin. by subst. }
  assert (set_dims pe = U) as Hdims.
  { cbn in Hcover. rewrite Hops in Hcover. cbn in Hcover.
    fold U in Hcover. rewrite <- Hcover. set_solver. }
  pose proof (prefix_invariant _ _ _ _ _ _ Hrun) as (Hc & _ & _).
  assert (forall d, d ∈ final_reduce_dims (ps_counter st) D -> d ∈ D) as Hfinal_D.
  { intros d Hd. by apply final_reduce_dims_spec in Hd as [_ ?]. }
  assert (forall d, d ∈ D -> d ∈ U -> d ∈ final_reduce_dims (ps_counter st) D) as Hfinal.
  { intros d HdD HdU. apply final_reduce_dims_spec. split; [|done].
    rewrite Hc. by apply Hpos. }
  unfold optimize_reduction. rewrite Hrun. cbn. rewrite Hend.
  unfold is_empty_set. case_bool_decide as Hempty.
  - exists pe. split; [reflexivity|]. split.
    + rewrite Hdims. apply set_eq. intros d. rewrite elem_of_difference.
      split; [|tauto]. intros Hd. split; [done|]. intros HdD.
      specialize (Hfinal d HdD Hd). rewrite Hempty in Hfinal.
      by apply elem_of_empty in Hfinal.
    + intros d HdD HdU. specialize (Hfinal d HdD HdU). rewrite Hempty in Hfinal.
      by apply elem_of_empty in Hfinal.
  - eexists. split; [reflexivity|]. split.
    + rewrite set_dims_Reduction, Hdims. apply set_eq. intros d.
      rewrite !elem_of_difference. split.
      * intros [Hd Hnot]. split; [done|]. intros HdD. by apply Hnot, Hfinal.
      * intros [Hd Hnot]. split; [done|]. intros Hf. apply Hnot.
        by apply Hfinal_D.
    + intros d HdD HdU. exists pe, (final_reduce_dims (ps_counter st) D).
      split; [reflexivity|]. split; [by apply Hfinal | exact Hdims].
Qed.

Lemma optimize_reduction_eliminates_witness :
  exists t,
    @optimize_reduction left_to_right op_add (Finitary op_mul [x_ij; x_jk; x_kl]) {[ "j"; "k" ]}
    = Ok t /\
    set_dims t = ⋃ (set_dims <$> [x_ij; x_jk; x_kl]) ∖ {[ "j"; "k" ]} /\
    (forall d, d ∈ ({[ "j"; "k" ]} : gset string) -> d ∈ ⋃ (set_dims <$> [x_ij; x_jk; x_kl]) ->
       exists path_end final,
         t = Reduction op_add path_end final /\ d ∈ final /\
         set_dims path_end = ⋃ (set_dims <$> [x_ij; x_jk; x_kl])).
Proof.
  apply (@optimize_reduction_eliminates left_to_right op_add op_mul
           [x_ij; x_jk; x_kl] {[ "j"; "k" ]}).
  - cbn. lia.
  - vm_compute. reflexivity.
Defined.

(** The spec's example: dims [{i,j}], [{j,k}], [{k,l}], eliminating [{j,k}]. *)
Example optimize_three_operands :
  dims <$> @optimize_reduction left_to_right op_add
             (Finitary op_mul [x_ij; x_jk; x_kl]) {[ "j"; "k" ]}
  = Ok ["i"; "l"].
Proof. vm_compute. reflexivity. Qed.

(** A [Finitary] with a single operand, as [Desugar] builds from a
    [Unary], has no pairwise step: with the empty path [path_end] is never
    bound. *)
Example optimize_single_operand :
  @optimize_reduction left_to_right op_add (Finitary op_neg [x_ij]) {[ "j" ]}
  = Raise UnboundLocalError.
Proof. vm_compute. reflexivity. Qed.

(* ------------------------------------------------------------------ *)
(** ** The trampoline on failure *)

Section DriverFailure.
Context {F V : Type}.
Variable apply : F -> list V -> list (string * V) -> res V.

(** A failure of the decorated function reaches the [else] branch of
    [__exit__]: everything is discarded and the failure propagates. *)
Lemma body_failure_discards (body : Trampoline.handler F V -> res unit * Trampoline.handler F V)
    (self : Trampoline.handler F V) (e : exn) :
  (body (Trampoline.enter self)).1 = Raise e ->
  Trampoline.call apply body self = (Raise e, Trampoline.mk_handler [] [] [] None).
Proof.
  unfold Trampoline.call. destruct (body (Trampoline.enter self)) as [[u|e'] self']; cbn; [done|].
  by intros [= ->].
Qed.

(** A failure of a scheduled call is raised inside [__exit__] itself: the
    failure propagates, and the lists stay as the loop left them. *)
Lemma step_failure_propagates (body : Trampoline.handler F V -> res unit * Trampoline.handler F V)
    (self self' : Trampoline.handler F V) (u : unit) (e : exn)
    (s : list (F * nat * nat)) (aq : list V) (kq : list (string * V)) :
  body (Trampoline.enter self) = (Ok u, self') ->
  Trampoline.drain apply (Trampoline._schedule self') (Trampoline._args_queue self')
    (Trampoline._kwargs_queue self') = (Some e, (s, aq, kq)) ->
  Trampoline.call apply body self
  = (Raise e, Trampoline.mk_handler s aq kq (Trampoline._returnvalue self')).
Proof.
  intros Hbody Hdrain. unfold Trampoline.call. rewrite Hbody.
  unfold Trampoline.exit. by rewrite Hdrain.
Qed.
End DriverFailure.

(** C8, as stated, fails: when the first of two scheduled calls raises,
    the failure propagates and no value is returned, but the second call
    and its argument are still in the work list and the queue. *)
Theorem step_failure_keeps_pending_work :
  Trampoline.call Trampoline.example_apply Trampoline.example_body
    (Trampoline.mk_handler [] [] [] None)
  = (Raise ValueError,
     Trampoline.mk_handler [(Trampoline.Bump, 1, 0)] [7] [] None).
Proof. reflexivity. Qed.

(* ------------------------------------------------------------------ *)
(** ** eval under the trampoline: native stack depth *)

Section EvalDepth.
Import Engine.
Variable apply : effect -> list value -> list (string * value) -> res value.

(** Every [Substitution] wrap costs two more frames: [eval(x.arg)] is
    computed while the frames of the enclosing call are still on the
    stack. *)
Lemma eval_wraps_needs_frames (n : nat) (subs : list (string * term)) (x : term)
    (frames : nat) (self : Trampoline.handler effect value) :
  frames < 2 * (n + 1) ->
  (eval apply frames (wraps n subs x) self).1 = Raise RecursionError.
Proof.
  revert frames self. induction n as [|n IH]; intros frames self Hlt.
  - destruct frames as [|[|frames]]; [reflexivity| |lia].
    cbn [eval]. by rewrite (body_failure_discards apply _ _ RecursionError).
  - destruct frames as [|[|frames]]; [reflexivity| |].
    + cbn [eval]. by rewrite (body_failure_discards apply _ _ RecursionError).
    + cbn [eval wraps]. rewrite (body_failure_discards apply _ _ RecursionError); [done|].
      cbn [eval_body]. unfold nested at 1.
      specialize (IH frames (Trampoline.enter self)).
      destruct (eval apply frames (wraps n subs x) (Trampoline.enter self)) as [[[v|]|e] self'];
        cbn in IH |- *; try (specialize (IH ltac:(lia)); discriminate).
      specialize (IH ltac:(lia)). by injection IH as ->.
Qed.
End EvalDepth.

(** C5, as stated, fails: the native stack that [eval] needs grows with
    the nesting depth, and at the interpreter's recursion limit a chain of
    10,000 [Substitution] wraps ends in [RecursionError], whatever the
    bindings, the innermost term and the installed handlers; no limit
    suffices for the chains of its own length. *)
Theorem eval_deep_chain_overflows
    (apply : Engine.effect -> list Engine.value -> list (string * Engine.value) ->
             res Engine.value)
    (subs : list (string * term)) (x : term) :
  (Engine.eval apply Engine.recursion_limit
     (Engine.wraps Engine.chain_depth subs x) Engine.fresh).1 = Raise RecursionError /\
  (forall limit : nat,
     (Engine.eval apply limit (Engine.wraps limit subs x) Engine.fresh).1
     = Raise RecursionError).
Proof.
  split.
  - apply eval_wraps_needs_frames. unfold Engine.recursion_limit, Engine.chain_depth. lia.
  - intros limit. apply eval_wraps_needs_frames. lia.
Qed.

(** A small instance of the same shape evaluates to itself. *)
Example eval_small_chain :
  (Engine.eval Engine.reflect Engine.recursion_limit
     (Engine.wraps 3 [] (Number 1)) Engine.fresh).1
  = Ok (Some (Engine.VTerm (Engine.wraps 3 [] (Number 1)))).
Proof. vm_compute. reflexivity. Qed.

(* ------------------------------------------------------------------ *)
(** ** eval under the trampoline: what is left in the handler *)

Section EvalIdle.
Import Engine.
Variable apply : effect -> list value -> list (string * value) -> res value.

Lemma idle_cleared : Trampoline.idle (Trampoline.mk_handler (F:=effect) (V:=value) [] [] [] None).
Proof. by repeat split. Qed.

Lemma exit_one_step (self : Trampoline.handler effect value) :
  Trampoline.one_step self -> Trampoline.idle (Trampoline.exit apply None self).2.
Proof.
  intros (fn & args & Hs & Ha & Hk). unfold Trampoline.exit.
  rewrite Hs, Ha, Hk. cbn [Trampoline.drain].
  rewrite decide_True by lia. rewrite decide_True by (cbn; lia).
  rewrite take_ge, drop_ge by lia. cbn [take drop].
  destruct (apply fn args []) as [v|e]; cbn; by repeat split.
Qed.

Lemma call_idle (body : Trampoline.handler effect value -> res unit * Trampoline.handler effect value)
    (self : Trampoline.handler effect value) :
  (forall h u h', Trampoline.idle h -> body h = (Ok u, h') -> Trampoline.one_step h') ->
  Trampoline.idle (Trampoline.call apply body self).2.
Proof.
  intros Hbody. unfold Trampoline.call.
  destruct (body (Trampoline.enter self)) as [[u|e] h'] eqn:Hb.
  - assert (Trampoline.one_step h') as Hone.
    { eapply Hbody; [|exact Hb]. apply idle_cleared. }
    pose proof (exit_one_step h' Hone) as Hidle.
    destruct (Trampoline.exit apply None h') as [[e|] h'']; exact Hidle.
  - cbn. apply idle_cleared.
Qed.

Lemma tail_call_one_step (fn : effect) (args : list value)
    (h : Trampoline.handler effect value) :
  Trampoline.idle h -> Trampoline.one_step (Trampoline.process_TailCall fn args [] h).
Proof.
  intros (Hs & Ha & Hk). exists fn, args. cbn. by rewrite Hs, Ha, Hk.
Qed.

Section Body.
Variable rec : term -> Trampoline.handler effect value ->
               res (option value) * Trampoline.handler effect value.
Hypothesis rec_idle : forall x h, Trampoline.idle h -> Trampoline.idle (rec x h).2.

Lemma nested_idle (c : term) (h : Trampoline.handler effect value) :
  Trampoline.idle h -> Trampoline.idle (nested rec c h).2.
Proof.
  intros Hh. unfold nested. pose proof (rec_idle c h Hh) as Hi.
  destruct (rec c h) as [[[v|]|e] h']; exact Hi.
Qed.

Lemma nested_all_idle (cs : list term) (h : Trampoline.handler effect value) :
  Trampoline.idle h -> Trampoline.idle (nested_all rec cs h).2.
Proof.
  revert h. induction cs as [|c cs IH]; intros h Hh; [exact Hh|].
  cbn [nested_all]. pose proof (nested_idle c h Hh) as Hc.
  destruct (nested rec c h) as [[v|e] h1]; [|exact Hc].
  specialize (IH h1 Hc). destruct (nested_all rec cs h1) as [[vs|e] h2]; exact IH.
Qed.

Lemma nested_subs_idle (cs : list (string * term)) (h : Trampoline.handler effect value) :
  Trampoline.idle h -> Trampoline.idle (nested_subs rec cs h).2.
Proof.
  revert h. induction cs as [|[d c] cs IH]; intros h Hh; [exact Hh|].
  cbn [nested_subs]. pose proof (nested_idle c h Hh) as Hc.
  destruct (nested rec c h) as [[v|e] h1]; [|exact Hc].
  specialize (IH h1 Hc). destruct (nested_subs rec cs h1) as [[vs|e] h2]; exact IH.
Qed.

(** A call of [eval] schedules exactly one step. *)
Lemma eval_body_one_step (x : term) (h h' : Trampoline.handler effect value) (u : unit) :
  Trampoline.idle h -> eval_body rec x h = (Ok u, h') -> Trampoline.one_step h'.
Proof.
  intros Hh. destruct x; cbn [eval_body]; unfold _tail_call;
    try (intros [= _ <-]; by apply tail_call_one_step);
    try discriminate.
  - (* Substitution *)
    pose proof (nested_idle x h Hh) as H1.
    destruct (nested rec x h) as [[a|e] h1]; [|discriminate].
    pose proof (nested_subs_idle subs h1 H1) as H2.
    destruct (nested_subs rec subs h1) as [[ss|e] h2]; [|discriminate].
    intros [= _ <-]. by apply tail_call_one_step.
  - (* Binary *)
    pose proof (nested_idle x1 h Hh) as H1.
    destruct (nested rec x1 h) as [[a|e] h1]; [|discriminate].
    pose proof (nested_idle x2 h1 H1) as H2.
    destruct (nested rec x2 h1) as [[b|e] h2]; [|discriminate].
    intros [= _ <-]. by apply tail_call_one_step.
  - (* Finitary *)
    pose proof (nested_all_idle operands h Hh) as H1.
    destruct (nested_all rec operands h) as [[vs|e] h1]; [|discriminate].
    intros [= _ <-]. by apply tail_call_one_step.
  - (* Reduction *)
    pose proof (nested_idle x h Hh) as H1.
    destruct (nested rec x h) as [[a|e] h1]; [|discriminate].
    intros [= _ <-]. by apply tail_call_one_step.
  - (* Normal *)
    destruct (param "loc" params) as [loc|]; [|discriminate].
    destruct (param "scale" params) as [scale|]; [|discriminate].
    pose proof (nested_idle loc h Hh) as H1.
    destruct (nested rec loc h) as [[a|e] h1]; [|discriminate].
    pose proof (nested_idle scale h1 H1) as H2.
    destruct (nested rec scale h1) as [[b|e] h2]; [|discriminate].
    intros [= _ <-]. by apply tail_call_one_step.
Qed.
End Body.

(** Because every call of [eval] schedules one step only, nothing is
    pending in the handler after [eval], whether it returned or raised. *)
Lemma eval_leaves_idle (frames : nat) (x : term) (self : Trampoline.handler effect value) :
  Trampoline.idle self -> Trampoline.idle (eval apply frames x self).2.
Proof.
  revert x self. induction (lt_wf frames) as [frames _ IH]. intros x self Hself.
  destruct frames as [|[|frames]]; [exact Hself| |]; cbn [eval]; apply call_idle.
  - intros h u h' _. discriminate.
  - intros h u h' Hh. apply eval_body_one_step; [|exact Hh].
    intros y g Hg. apply IH; [lia | exact Hg].
Qed.
End EvalIdle.

(* ================================================================== *)
(** * Further properties of the code *)

(* ------------------------------------------------------------------ *)
(** ** The trampoline: which call gets which arguments *)

Section DriverRunsProps.
Context {F V : Type}.
Variable apply : F -> list V -> list (string * V) -> res V.

Lemma schedule_all_fields (calls : list (F * list V * list (string * V)))
    (self : Trampoline.handler F V) :
  schedule_all calls self
  = Trampoline.mk_handler
      (Trampoline._schedule self ++ ((fun c => (c.1.1, length c.1.2, length c.2)) <$> calls))
      (Trampoline._args_queue self ++ concat ((fun c => c.1.2) <$> calls))
      (Trampoline._kwargs_queue self ++ concat ((fun c => c.2) <$> calls))
      (Trampoline._returnvalue self).
Proof.
  revert self. induction calls as [|[[fn args] kwargs] calls IH]; intros self.
  - cbn. rewrite !app_nil_r. by destruct self.
  - unfold schedule_all in *. cbn [fold_left]. rewrite IH. cbn.
    by rewrite <- !app_assoc.
Qed.

Lemma drain_scheduled (calls : list (F * list V * list (string * V))) (results : list V) :
  match run_calls apply calls with
  | Ok vs =>
      Trampoline.drain apply ((fun c => (c.1.1, length c.1.2, length c.2)) <$> calls)
        (concat ((fun c => c.1.2) <$> calls) ++ results)
        (concat ((fun c => c.2) <$> calls))
      = (None, ([], results ++ vs, []))
  | Raise e =>
      (Trampoline.drain apply ((fun c => (c.1.1, length c.1.2, length c.2)) <$> calls)
         (concat ((fun c => c.1.2) <$> calls) ++ results)
         (concat ((fun c => c.2) <$> calls))).1 = Some e
  end.
Proof.
  revert results. induction calls as [|[[fn args] kwargs] calls IH]; intros results.
  - cbn. by rewrite app_nil_r.
  - cbn [run_calls fmap list_fmap concat fst snd Trampoline.drain].
    rewrite <- app_assoc.
    rewrite decide_True by (rewrite length_app; lia).
    rewrite decide_True by (rewrite length_app; lia).
    rewrite !take_app_length, !drop_app_length.
    destruct (apply fn args kwargs) as [v|e]; cbn; [|reflexivity].
    specialize (IH (results ++ [v])). rewrite <- app_assoc.
    destruct (run_calls apply calls) as [vs|e]; cbn.
    + rewrite IH. by rewrite <- app_assoc.
    + exact IH.
Qed.

Lemma exit_scheduled (calls : list (F * list V * list (string * V)))
    (self : Trampoline.handler F V) :
  Trampoline.exit apply None (schedule_all calls (Trampoline.enter self))
  = match Trampoline.drain apply ((fun c => (c.1.1, length c.1.2, length c.2)) <$> calls)
            (concat ((fun c => c.1.2) <$> calls) ++ [])
            (concat ((fun c => c.2) <$> calls)) with
    | (Some e, (s, aq, kq)) => (Some e, Trampoline.mk_handler s aq kq None)
    | (None, (s, [], kq)) => (Some IndexError, Trampoline.mk_handler s [] kq None)
    | (None, (s, [v], [])) => (None, Trampoline.mk_handler s [] [] (Some v))
    | (None, (s, v :: aq, kq)) => (Some AssertionError, Trampoline.mk_handler s aq kq (Some v))
    end.
Proof.
  rewrite schedule_all_fields. unfold Trampoline.exit. cbn. rewrite app_nil_r.
  destruct (Trampoline.drain _ _ _ _) as [[e|] [[s aq] kq]]; [done|].
  destruct aq as [|v [|w aq]]; [done| |done]. by destruct kq.
Qed.

(** X1. A decorated function that schedules one call gets that call's
    result back, and nothing is left pending in the handler. *)
Theorem trampoline_single_call (fn : F) (args : list V) (kwargs : list (string * V))
    (v : V) (self : Trampoline.handler F V) :
  apply fn args kwargs = Ok v ->
  Trampoline.call apply (scheduling_body [(fn, args, kwargs)]) self
  = (Ok (Some v), Trampoline.mk_handler [] [] [] (Some v)).
Proof.
  intros Hv. unfold Trampoline.call, scheduling_body. rewrite exit_scheduled.
  pose proof (drain_scheduled [(fn, args, kwargs)] []) as Hd.
  cbn [run_calls] in Hd. rewrite Hv in Hd. cbn in Hd. cbn. by rewrite Hd.
Qed.

(** X2. The driver returns a value only when exactly one call was
    scheduled: with none the queue is empty when the result is popped, with
    two or more the assertion on the queues fails (or a call raised). *)
Theorem trampoline_returns_only_single (calls : list (F * list V * list (string * V)))
    (self : Trampoline.handler F V) :
  length calls <> 1 ->
  is_ok (Trampoline.call apply (scheduling_body calls) self).1 = false.
Proof.
  intros Hlen. unfold Trampoline.call, scheduling_body. rewrite exit_scheduled.
  pose proof (drain_scheduled calls []) as Hd.
  assert (forall vs, run_calls apply calls = Ok vs -> length vs = length calls) as Hvs.
  { clear. induction calls as [|[[fn args] kwargs] calls IH]; intros vs; cbn.
    - by intros [= <-].
    - destruct (apply fn args kwargs); cbn; [|discriminate].
      destruct (run_calls apply calls) as [vs'|]; cbn; [|discriminate].
      intros [= <-]. cbn. by rewrite (IH vs'). }
  destruct (run_calls apply calls) as [vs|e].
  - rewrite Hd. cbn [app]. specialize (Hvs vs eq_refl).
    destruct vs as [|v [|w vs]]; cbn in Hvs; [done|lia|done].
  - destruct (Trampoline.drain _ _ _ _) as [[e'|] [[s aq] kq]]; [done|discriminate].
Qed.

(** X3. The calls run in the order they were scheduled, each on the
    arguments it was scheduled with; the exception of the first one that
    fails is the one the caller of the decorated function sees. *)
Theorem trampoline_first_failure_propagates (calls : list (F * list V * list (string * V)))
    (self : Trampoline.handler F V) (e : exn) :
  run_calls apply calls = Raise e ->
  (Trampoline.call apply (scheduling_body calls) self).1 = Raise e.
Proof.
  intros Hrun. unfold Trampoline.call, scheduling_body. rewrite exit_scheduled.
  pose proof (drain_scheduled calls []) as Hd. rewrite Hrun in Hd.
  destruct (Trampoline.drain _ _ _ _) as [[e'|] [[s aq] kq]]; cbn in Hd; [|discriminate].
  by injection Hd as ->.
Qed.

(** X4. When all scheduled calls succeed their results are queued in call
    order behind nothing else: no result is consumed by a later call; the
    first becomes [_returnvalue] and the others stay in the queue. *)
Theorem trampoline_results_queue (calls : list (F * list V * list (string * V)))
    (self : Trampoline.handler F V) (v : V) (vs : list V) :
  run_calls apply calls = Ok (v :: vs) ->
  (Trampoline.exit apply None (schedule_all calls (Trampoline.enter self))).2
  = Trampoline.mk_handler [] vs [] (Some v).
Proof.
  intros Hrun. rewrite exit_scheduled.
  pose proof (drain_scheduled calls []) as Hd. rewrite Hrun in Hd.
  rewrite Hd. cbn [app]. by destruct vs.
Qed.
End DriverRunsProps.

Lemma trampoline_single_call_witness :
  Trampoline.call Trampoline.example_apply
    (scheduling_body [(Trampoline.Bump, [7], [])]) (Trampoline.mk_handler [] [] [] None)
  = (Ok (Some 8), Trampoline.mk_handler [] [] [] (Some 8)).
Proof.
  apply (trampoline_single_call Trampoline.example_apply Trampoline.Bump [7] [] 8).
  reflexivity.
Defined.

Lemma trampoline_returns_only_single_witness :
  is_ok (Trampoline.call Trampoline.example_apply
           (scheduling_body [(Trampoline.Bump, [7], []); (Trampoline.Bump, [1], [])])
           (Trampoline.mk_handler [] [] [] None)).1 = false.
Proof.
  apply (trampoline_returns_only_single Trampoline.example_apply).
  cbn. lia.
Defined.

Lemma trampoline_first_failure_propagates_witness :
  (Trampoline.call Trampoline.example_apply
     (scheduling_body [(Trampoline.Bump, [7], []); (Trampoline.Boom, [], []);
                       (Trampoline.Bump, [], [])])
     (Trampoline.mk_handler [] [] [] None)).1 = Raise ValueError.
Proof.
  apply (trampoline_first_failure_propagates Trampoline.example_apply).
  reflexivity.
Defined.

Lemma trampoline_results_queue_witness :
  (Trampoline.exit Trampoline.example_apply None
     (schedule_all [(Trampoline.Bump, [7], []); (Trampoline.Bump, [1], [])]
        (Trampoline.enter (Trampoline.mk_handler [] [] [] None)))).2
  = Trampoline.mk_handler [] [2] [] (Some 8).
Proof.
  apply (trampoline_results_queue Trampoline.example_apply _ _ 8 [2]).
  reflexivity.
Defined.

(* ------------------------------------------------------------------ *)
(** ** eval under the default interpretation *)

Section EvalReflect.
Import Engine.

Lemma call_one_tail_call (apply : effect -> list value -> list (string * value) -> res value)
    (body : Trampoline.handler effect value -> res unit * Trampoline.handler effect value)
    (self h : Trampoline.handler effect value) (u : unit)
    (fn : effect) (args : list value) (v : value) :
  body (Trampoline.enter self) = (Ok u, Trampoline.process_TailCall fn args [] h) ->
  Trampoline.idle h ->
  apply fn args [] = Ok v ->
  Trampoline.call apply body self
  = (Ok (Some v), Trampoline.mk_handler [] [] [] (Some v)).
Proof.
  intros Hbody (Hs & Ha & Hk) Hv. unfold Trampoline.call. rewrite Hbody.
  destruct h as [s a k r]. cbn in Hs, Ha, Hk. subst s a k.
  unfold Trampoline.exit. cbn.
  rewrite decide_True by lia. rewrite decide_True by lia.
  rewrite take_ge, drop_ge by lia. cbn. by rewrite Hv.
Qed.

Section Children.
Variable rec : term -> Trampoline.handler effect value ->
               res (option value) * Trampoline.handler effect value.

Lemma nested_all_returns (cs : list term) (h : Trampoline.handler effect value) :
  Forall (fun c => forall g, rec c g = (Ok (Some (VTerm c)), returned c)) cs ->
  Trampoline.idle h ->
  exists h', nested_all rec cs h = (Ok (VTerm <$> cs), h') /\ Trampoline.idle h'.
Proof.
  intros Hcs. revert h. induction Hcs as [|c cs Hc _ IH]; intros h Hh.
  - exists h. by split.
  - cbn [nested_all]. unfold nested. rewrite Hc.
    destruct (IH (returned c)) as (h' & -> & Hh'); [by repeat split|].
    exists h'. by split.
Qed.

Lemma nested_subs_returns (subs : list (string * term)) (h : Trampoline.handler effect value) :
  Forall (fun dv => forall g, rec dv.2 g = (Ok (Some (VTerm dv.2)), returned dv.2)) subs ->
  Trampoline.idle h ->
  exists h', nested_subs rec subs h
             = (Ok ((fun dv => VTuple [VStr dv.1; VTerm dv.2]) <$> subs), h') /\
             Trampoline.idle h'.
Proof.
  intros Hcs. revert h. induction Hcs as [|[d c] cs Hc _ IH]; intros h Hh.
  - exists h. by split.
  - cbn [nested_subs]. unfold nested. cbn in Hc. rewrite Hc.
    destruct (IH (returned c)) as (h' & -> & Hh'); [by repeat split|].
    exists h'. by split.
Qed.
End Children.

Lemma mapM_as_term (cs : list term) : mapM as_term (VTerm <$> cs) = Some cs.
Proof. induction cs as [|c cs IH]; [done|]. cbn. by rewrite IH. Qed.

Lemma mapM_as_str (ds : list string) : mapM as_str (VStr <$> ds) = Some ds.
Proof. induction ds as [|d ds IH]; [done|]. cbn. by rewrite IH. Qed.

Lemma mapM_as_sub (subs : list (string * term)) :
  mapM as_sub ((fun dv => VTuple [VStr dv.1; VTerm dv.2]) <$> subs) = Some subs.
Proof. induction subs as [|[d c] subs IH]; [done|]. cbn. by rewrite IH. Qed.

Lemma height_operands (operands : list term) (n : nat) :
  foldr (fun t h => Nat.max (S (height t)) h) 0 operands <= n ->
  Forall (fun t => height t < n) operands.
Proof.
  induction operands as [|t ts IH]; [constructor|]. cbn. intros Hlt.
  constructor; [lia|]. apply IH. lia.
Qed.

Lemma height_subs (subs : list (string * term)) (n0 n : nat) :
  foldr (fun dv h => Nat.max (height dv.2) h) n0 subs < n ->
  n0 < n /\ Forall (fun dv => height dv.2 < n) subs.
Proof.
  induction subs as [|dv ts IH]; cbn; [by split|]. intros Hlt.
  destruct IH as [H0 Hts]; [lia|]. split; [done|]. constructor; [lia|done].
Qed.

Lemma eval_reflect_within (n : nat) :
  forall (x : term) (frames : nat) (self : Trampoline.handler effect value),
    height x < n -> handled x = true -> 2 * n <= frames ->
    eval reflect frames x self = (Ok (Some (VTerm x)), returned x).
Proof.
  induction n as [|n IH]; intros x frames self Hh Hx Hf; [lia|].
  destruct frames as [|[|f]]; [lia|lia|].
  assert (forall c g, height c < n -> handled c = true ->
            eval reflect f c g = (Ok (Some (VTerm c)), returned c)) as Hrec.
  { intros c g Hc Hc'. apply IH; [done|done|lia]. }
  cbn [eval].
  destruct x; cbn in Hh, Hx; try discriminate.
  - (* Variable *)
    eapply call_one_tail_call; [reflexivity | by repeat split | reflexivity].
  - (* Substitution *)
    apply andb_true_iff in Hx as [Harg Hsubs].
    apply Nat.succ_lt_mono in Hh. apply height_subs in Hh as [Ha Hs].
    destruct (nested_subs_returns (eval reflect f) subs (returned x)) as (h' & Hn & Hh').
    { rewrite forallb_forall in Hsubs. apply Forall_forall. intros dv Hin g.
      apply Hrec.
      - by apply (proj1 (Forall_forall _ _) Hs).
      - apply Hsubs. by apply list_elem_of_In. }
    { by repeat split. }
    eapply call_one_tail_call; [|exact Hh'|].
    + cbn [eval_body]. unfold nested. rewrite (Hrec x _ Ha Harg). rewrite Hn. reflexivity.
    + cbn. by rewrite mapM_as_sub.
  - (* Binary *)
    apply andb_true_iff in Hx as [Hl Hr].
    eapply call_one_tail_call; [| |].
    + cbn [eval_body]. unfold nested. rewrite !Hrec by (done || lia). reflexivity.
    + by repeat split.
    + reflexivity.
  - (* Finitary *)
    apply Nat.lt_succ_r, height_operands in Hh.
    destruct (nested_all_returns (eval reflect f) operands (Trampoline.enter self))
      as (h' & Hn & Hh').
    { rewrite forallb_forall in Hx. apply Forall_forall. intros c Hin g.
      apply Hrec.
      - by apply (proj1 (Forall_forall _ _) Hh).
      - apply Hx. by apply list_elem_of_In. }
    { by repeat split. }
    eapply call_one_tail_call; [|exact Hh'|].
    + cbn [eval_body]. rewrite Hn. reflexivity.
    + cbn. by rewrite mapM_as_term.
  - (* Reduction *)
    eapply call_one_tail_call; [| |].
    + cbn [eval_body]. unfold nested. rewrite Hrec by (done || lia). reflexivity.
    + by repeat split.
    + reflexivity.
  - (* Number *)
    eapply call_one_tail_call; [reflexivity | by repeat split | reflexivity].
  - (* Tensor *)
    eapply call_one_tail_call; [reflexivity | by repeat split |].
    cbn. by rewrite mapM_as_str.
Qed.

(** X5. Under the default interpretation and with enough stack, [eval]
    returns the term it was given, for every term built from the classes
    it handles. *)
Theorem eval_reflect_identity (x : term) :
  handled x = true ->
  exists n : nat,
    forall (frames : nat) (self : Trampoline.handler effect value),
      n <= frames ->
      eval reflect frames x self = (Ok (Some (VTerm x)), returned x).
Proof.
  intros Hx. exists (2 * S (height x)). intros frames self Hf.
  by apply (eval_reflect_within (S (height x))); [lia| |].
Qed.

(** *** Too little stack *)

Section Short.
Variable apply : effect -> list value -> list (string * value) -> res value.

Lemma nested_fails (rec : term -> Trampoline.handler effect value ->
                          res (option value) * Trampoline.handler effect value)
    (c : term) (h : Trampoline.handler effect value) :
  is_ok (rec c h).1 = false -> is_ok (nested rec c h).1 = false.
Proof. unfold nested. by destruct (rec c h) as [[[v|]|e] h']. Qed.

Lemma nested_all_fails (rec : term -> Trampoline.handler effect value ->
                              res (option value) * Trampoline.handler effect value)
    (cs : list term) :
  Exists (fun c => forall g, is_ok (rec c g).1 = false) cs ->
  forall h, is_ok (nested_all rec cs h).1 = false.
Proof.
  induction 1 as [c cs Hc | c cs _ IH]; intros h; cbn [nested_all].
  - pose proof (nested_fails rec c h (Hc h)) as Hn.
    by destruct (nested rec c h) as [[v|e] h'].
  - destruct (nested rec c h) as [[v|e] h']; [|done].
    specialize (IH h'). by destruct (nested_all rec cs h') as [[vs|e] h''].
Qed.

Lemma nested_subs_fails (rec : term -> Trampoline.handler effect value ->
                               res (option value) * Trampoline.handler effect value)
    (subs : list (string * term)) :
  Exists (fun dv => forall g, is_ok (rec dv.2 g).1 = false) subs ->
  forall h, is_ok (nested_subs rec subs h).1 = false.
Proof.
  induction 1 as [[d c] cs Hc | [d c] cs _ IH]; intros h; cbn [nested_subs].
  - pose proof (nested_fails rec c h (Hc h)) as Hn.
    by destruct (nested rec c h) as [[v|e] h'].
  - destruct (nested rec c h) as [[v|e] h']; [|done].
    specialize (IH h'). by destruct (nested_subs rec cs h') as [[vs|e] h''].
Qed.

Lemma height_operands_deep (operands : list term) :
  0 < foldr (fun t h => Nat.max (S (height t)) h) 0 operands ->
  Exists (fun t => foldr (fun t h => Nat.max (S (height t)) h) 0 operands <= S (height t))
         operands.
Proof.
  induction operands as [|t ts IH]; cbn [foldr]; [lia|]. intros _.
  destruct (decide (foldr (fun t h => Nat.max (S (height t)) h) 0 ts <= S (height t)))
    as [Hle|Hgt].
  - apply Exists_cons_hd. lia.
  - apply Exists_cons_tl. eapply Exists_impl; [apply IH; lia|].
    intros c Hc. cbn beta in Hc. lia.
Qed.

Lemma height_subs_deep (subs : list (string * term)) (n0 : nat) :
  foldr (fun dv h => Nat.max (height dv.2) h) n0 subs <= n0 \/
  Exists (fun dv => foldr (fun dv h => Nat.max (height dv.2) h) n0 subs <= height dv.2) subs.
Proof.
  induction subs as [|dv ts IH]; cbn [foldr]; [left; lia|].
  destruct (decide (foldr (fun dv h => Nat.max (height dv.2) h) n0 ts <= height dv.2))
    as [Hle|Hgt].
  - right. apply Exists_cons_hd. lia.
  - destruct IH as [IH|IH]; [left; lia|].
    right. apply Exists_cons_tl. eapply Exists_impl; [exact IH|].
    intros c Hc. cbn beta in Hc. lia.
Qed.

Lemma call_body_fails
    (body : Trampoline.handler effect value -> res unit * Trampoline.handler effect value)
    (self : Trampoline.handler effect value) :
  is_ok (body (Trampoline.enter self)).1 = false ->
  is_ok (Trampoline.call apply body self).1 = false.
Proof.
  intros Hb. destruct (body (Trampoline.enter self)) as [[u|e] h] eqn:E; [discriminate|].
  rewrite (body_failure_discards apply body self e); [done|by rewrite E].
Qed.

Lemma eval_short :
  forall (frames : nat) (x : term) (self : Trampoline.handler effect value),
    handled x = true -> frames < 2 * S (height x) ->
    is_ok (eval apply frames x self).1 = false.
Proof.
  intros frames. induction (lt_wf frames) as [frames _ IH]. intros x self Hx Hlt.
  destruct frames as [|[|f]]; [reflexivity| |].
  { cbn [eval]. by apply call_body_fails. }
  assert (forall c, handled c = true -> f < 2 * S (height c) ->
            forall g, is_ok (eval apply f c g).1 = false) as Hrec.
  { intros c Hc Hlt' g. apply IH; [lia|done|done]. }
  cbn [eval]. apply call_body_fails. cbn beta.
  destruct x; cbn [handled] in Hx; cbn [height] in Hlt; try discriminate; try lia;
    cbn [eval_body].
  - (* Substitution *)
    apply andb_true_iff in Hx as [Harg Hsubs].
    destruct (height_subs_deep subs (height x)) as [Hd|Hd].
    + pose proof (nested_fails _ x (Trampoline.enter self)
                    (Hrec x Harg ltac:(lia) _)) as Hn.
      by destruct (nested (eval apply f) x (Trampoline.enter self)) as [[v|e] h'].
    + destruct (nested (eval apply f) x (Trampoline.enter self)) as [[v|e] h']; [|done].
      assert (is_ok (nested_subs (eval apply f) subs h').1 = false) as Hn.
      { apply nested_subs_fails. apply Exists_exists in Hd as (dv & Hin & Hdv).
        apply Exists_exists. exists dv. split; [done|]. apply Hrec; [|lia].
        rewrite forallb_forall in Hsubs. apply Hsubs. by apply list_elem_of_In. }
      by destruct (nested_subs (eval apply f) subs h') as [[vs|e] h''].
  - (* Binary *)
    apply andb_true_iff in Hx as [Hl Hr].
    destruct (nested (eval apply f) x1 (Trampoline.enter self)) as [[l|e] h1] eqn:E1; [|done].
    destruct (nested (eval apply f) x2 h1) as [[r|e] h2] eqn:E2; [|done].
    exfalso. destruct (Nat.max_spec (height x1) (height x2)) as [[_ Hm]|[_ Hm]];
      rewrite Hm in Hlt.
    + pose proof (nested_fails _ x2 h1 (Hrec x2 Hr ltac:(lia) _)) as Hn.
      by rewrite E2 in Hn.
    + pose proof (nested_fails _ x1 (Trampoline.enter self) (Hrec x1 Hl ltac:(lia) _)) as Hn.
      by rewrite E1 in Hn.
  - (* Finitary *)
    assert (is_ok (nested_all (eval apply f) operands (Trampoline.enter self)).1 = false) as Hn.
    { apply nested_all_fails.
      pose proof (height_operands_deep operands ltac:(lia)) as Hd.
      apply Exists_exists in Hd as (t & Hin & Ht).
      apply Exists_exists. exists t. split; [done|]. apply Hrec; [|lia].
      rewrite forallb_forall in Hx. apply Hx. by apply list_elem_of_In. }
    by destruct (nested_all (eval apply f) operands (Trampoline.enter self)) as [[vs|e] h'].
  - (* Reduction *)
    pose proof (nested_fails _ x (Trampoline.enter self) (Hrec x Hx ltac:(lia) _)) as Hn.
    by destruct (nested (eval apply f) x (Trampoline.enter self)) as [[v|e] h'].
Qed.
End Short.

(** X6. The stack that [eval] needs grows with the nesting of the term:
    every level keeps the two frames of its call of [eval] on the stack,
    so with fewer than two frames per level left no interpretation of the
    scheduled constructors evaluates a term of the handled classes. *)
Theorem eval_needs_stack (x : term) (frames : nat)
    (self : Trampoline.handler effect value)
    (apply : effect -> list value -> list (string * value) -> res value) :
  handled x = true -> frames < 2 * S (height x) ->
  is_ok (eval apply frames x self).1 = false.
Proof. intros Hx Hlt. by apply eval_short. Qed.

(** *** Classes that eval rejects *)




End EvalReflect.

Lemma eval_reflect_identity_witness :
  exists n : nat,
    forall (frames : nat) (self : Trampoline.handler Engine.effect Engine.value),
      n <= frames ->
      Engine.eval Engine.reflect frames
        (Reduction op_add (Finitary op_mul [x_ij; x_jk]) {[ "j" ]}) self
      = (Ok (Some (Engine.VTerm (Reduction op_add (Finitary op_mul [x_ij; x_jk]) {[ "j" ]}))),
         returned (Reduction op_add (Finitary op_mul [x_ij; x_jk]) {[ "j" ]})).
Proof.
  apply (eval_reflect_identity (Reduction op_add (Finitary op_mul [x_ij; x_jk]) {[ "j" ]})).
  reflexivity.
Defined.

Lemma eval_needs_stack_witness :
  is_ok (Engine.eval Engine.reflect 7
           (Reduction op_add (Finitary op_mul [x_ij; x_jk]) {[ "j" ]}) Engine.fresh).1
  = false.
Proof.
  apply (eval_needs_stack
           (Reduction op_add (Finitary op_mul [x_ij; x_jk]) {[ "j" ]}) 7 Engine.fresh
           Engine.reflect).
  - reflexivity.
  - cbn. lia.
Defined.


(* ------------------------------------------------------------------ *)
(** ** What a call of eval leaves behind *)

Section EvalOutcome.
Import Engine.
Variable apply : effect -> list value -> list (string * value) -> res value.

Lemma call_returns_value
    (body : Trampoline.handler effect value -> res unit * Trampoline.handler effect value)
    (self : Trampoline.handler effect value) (r : option value) :
  (Trampoline.call apply body self).1 = Ok r ->
  is_Some r /\ r = Trampoline._returnvalue (Trampoline.call apply body self).2.
Proof.
  unfold Trampoline.call.
  destruct (body (Trampoline.enter self)) as [[u|e] h]; [|discriminate].
  unfold Trampoline.exit.
  destruct (Trampoline.drain apply _ _ _) as [[e|] [[s aq] kq]]; [discriminate|].
  destruct aq as [|v [|w aq]]; [discriminate| |discriminate].
  destruct kq; [|discriminate]. cbn. intros [= <-]. by split; [eexists|].
Qed.

(** X8. After a call of [eval] on a handler with nothing pending, nothing
    is pending, whether the call returned or raised; and a call that
    returns, returns a value (never [None]), the one kept in
    [_returnvalue]. *)
Theorem eval_outcome (frames : nat) (x : term) (self : Trampoline.handler effect value) :
  Trampoline.idle self ->
  Trampoline.idle (eval apply frames x self).2 /\
  (forall r, (eval apply frames x self).1 = Ok r ->
     is_Some r /\ r = Trampoline._returnvalue (eval apply frames x self).2).
Proof.
  intros Hself. split; [by apply eval_leaves_idle|].
  intros r. destruct frames as [|frames]; [discriminate|].
  cbn [eval]. apply call_returns_value.
Qed.
End EvalOutcome.

Lemma eval_outcome_witness :
  Trampoline.idle (Engine.eval Engine.reflect 6 (Reduction op_add x_ij {[ "i" ]}) Engine.fresh).2 /\
  (forall r, (Engine.eval Engine.reflect 6 (Reduction op_add x_ij {[ "i" ]}) Engine.fresh).1 = Ok r ->
     is_Some r /\
     r = Trampoline._returnvalue
           (Engine.eval Engine.reflect 6 (Reduction op_add x_ij {[ "i" ]}) Engine.fresh).2).
Proof.
  apply (eval_outcome Engine.reflect 6 (Reduction op_add x_ij {[ "i" ]}) Engine.fresh).
  by repeat split.
Defined.

(* ------------------------------------------------------------------ *)
(** ** Interning: one instance per key *)

Section InterningInjective.
Context {C A : Type} `{Countable C} `{Countable A}.
Variable init_args : C -> list string.
Variable init : C -> list A -> res unit.

Lemma heap_ok_empty : heap_ok (ConsHash.mk_heap (C:=C) (A:=A) ∅ 0).
Proof. intros k v Hk. cbn in Hk. by rewrite lookup_empty in Hk. Qed.

Lemma call_heap_ok (cls : C) (args : list A) (kwargs : gmap string A)
    (h h' : ConsHash.heap) (r : nat) :
  heap_ok h ->
  ConsHash.call init_args init cls args kwargs h = Ok (r, h') ->
  heap_ok h'.
Proof.
  intros Hok. unfold ConsHash.call.
  destruct (ConsHash.canonical_args init_args cls args kwargs) as [key|]; cbn; [|discriminate].
  destruct (ConsHash._cache h !! (cls, key)) as [r0|] eqn:Hc.
  - by intros [= <- <-].
  - destruct (init cls key); cbn; [|discriminate].
    intros [= <- <-]. intros k v. cbn.
    destruct (decide (k = (cls, key))) as [->|Hne].
    + rewrite lookup_insert_eq. intros [= <-]. split; [lia|].
      intros k'. destruct (decide (k' = (cls, key))) as [->|Hne']; [done|].
      rewrite lookup_insert_ne by done. intros Hk'.
      apply Hok in Hk' as [Hlt _]. lia.
    + rewrite lookup_insert_ne by done. intros Hk.
      destruct (Hok k v Hk) as [Hlt Hinj]. split; [lia|].
      intros k'. destruct (decide (k' = (cls, key))) as [->|Hne'].
      * rewrite lookup_insert_eq. intros [= <-]. lia.
      * rewrite lookup_insert_ne by done. apply Hinj.
Qed.

Lemma collect_heap_ok (dead : gset nat) (h : ConsHash.heap (C:=C) (A:=A)) :
  heap_ok h -> heap_ok (ConsHash.collect dead h).
Proof.
  intros Hok k v. cbn. intros [Hk _]%map_lookup_filter_Some.
  destruct (Hok k v Hk) as [Hlt Hinj]. split; [done|].
  intros k' [Hk' _]%map_lookup_filter_Some. by apply Hinj.
Qed.

Lemma heap_steps_ok (keep : nat) (h h' : ConsHash.heap) :
  rtc (ConsHash.heap_step init_args init keep) h h' -> heap_ok h -> heap_ok h'.
Proof.
  induction 1 as [|h1 h2 h3 Hstep _ IH]; [done|]. intros Hok. apply IH.
  destruct Hstep as [cls args kwargs h0 r h0' Hcall | dead h0 Hlive].
  - eapply call_heap_ok; [exact Hok | exact Hcall].
  - by apply collect_heap_ok.
Qed.

(** X9. Two construction calls return the same instance only if they are
    calls of the same class with the same canonical arguments: an instance
    that is still referenced is never handed out for another key. *)
Theorem interning_distinct_keys (cls1 cls2 : C) (args1 args2 : list A)
    (kwargs1 kwargs2 : gmap string A) (key1 key2 : list A)
    (h h1 h2 h3 : ConsHash.heap) (r : nat) :
  heap_ok h ->
  ConsHash.canonical_args init_args cls1 args1 kwargs1 = Ok key1 ->
  ConsHash.canonical_args init_args cls2 args2 kwargs2 = Ok key2 ->
  ConsHash.call init_args init cls1 args1 kwargs1 h = Ok (r, h1) ->
  rtc (ConsHash.heap_step init_args init r) h1 h2 ->
  ConsHash.call init_args init cls2 args2 kwargs2 h2 = Ok (r, h3) ->
  (cls1, key1) = (cls2, key2).
Proof.
  intros Hok Hk1 Hk2 Hcall1 Hsteps Hcall2.
  pose proof (call_heap_ok _ _ _ _ _ _ Hok Hcall1) as Hok1.
  pose proof (heap_steps_ok _ _ _ Hsteps Hok1) as Hok2.
  pose proof (call_caches init_args init _ _ _ _ _ _ _ Hk1 Hcall1) as Hc1.
  pose proof (heap_steps_keep init_args init _ _ _ _ Hsteps Hc1) as Hc2.
  destruct (Hok2 _ _ Hc2) as [Hlt Hinj].
  revert Hcall2. unfold ConsHash.call. rewrite Hk2. cbn.
  destruct (ConsHash._cache h2 !! (cls2, key2)) as [r0|] eqn:Hc.
  - intros [= -> _]. symmetry. by apply Hinj.
  - destruct (init cls2 key2); cbn; [|discriminate].
    intros [= Hr _]. lia.
Qed.

(** X10. Keywords fill the parameters that follow the positional
    arguments, in the order of the constructor's signature: a call with a
    positional prefix and the remaining arguments by keyword has the key of
    the fully positional call. *)
Theorem keywords_complete_positionals (cls : C) (pre post : list A)
    (names : list string) :
  NoDup names -> length names = length post -> post <> [] ->
  drop (length pre) (init_args cls) = names ->
  ConsHash.canonical_args init_args cls pre (list_to_map (zip names post))
  = Ok (pre ++ post).
Proof.
  intros Hnd Hlen Hne Hnames. unfold ConsHash.canonical_args.
  rewrite bool_decide_eq_false_2.
  2:{ destruct names as [|nm names], post as [|p post]; try done.
      cbn. intros E. apply (f_equal (fun m => m !! nm)) in E.
      by rewrite lookup_insert_eq, lookup_empty in E. }
  rewrite Hnames.
  assert (ConsHash.kwargs_to_args names (list_to_map (zip names post)) = Ok post) as ->; [|done].
  clear Hnames Hne. 
  assert (forall (m : gmap string A),
            (forall i nm p, names !! i = Some nm -> post !! i = Some p -> m !! nm = Some p) ->
            ConsHash.kwargs_to_args names m = Ok post) as Hgen.
  { clear Hnd. revert post Hlen. induction names as [|nm names IH]; intros post Hlen m Hm.
    - by destruct post.
    - destruct post as [|p post]; [done|]. cbn.
      rewrite (Hm 0 nm p eq_refl eq_refl).
      rewrite (IH post); [done|by injection Hlen|].
      intros i nm' p' Hi Hp. by apply (Hm (S i)). }
  apply Hgen. intros i nm p Hi Hp.
  apply elem_of_list_to_map; [|apply list_elem_of_lookup; exists i].
  - rewrite fst_zip by lia. exact Hnd.
  - rewrite lookup_zip_with. rewrite Hi, Hp. reflexivity.
Qed.
End InterningInjective.

Lemma interning_distinct_keys_witness :
  ("Variable", [inl "x"; inr 3%Z]) = ("Variable", [inl "x"; inr 3%Z] : list (string + Z)).
Proof.
  apply (interning_distinct_keys ConsHash.example_init_args ConsHash.example_init
           "Variable" "Variable" [inl "x"; inr 3%Z] [] ∅
           {[ "name" := inl "x"; "size" := inr 3%Z ]}
           [inl "x"; inr 3%Z] [inl "x"; inr 3%Z]
           (ConsHash.mk_heap ∅ 0) ConsHash.example_heap1 ConsHash.example_heap2
           ConsHash.example_heap2 0).
  - apply heap_ok_empty.
  - reflexivity.
  - vm_compute. reflexivity.
  - vm_compute. reflexivity.
  - eapply rtc_l; [|apply rtc_refl].
    apply (ConsHash.step_call _ _ 0 "Variable" [inl "y"; inr 4%Z] ∅ _ 1).
    vm_compute. reflexivity.
  - vm_compute. reflexivity.
Defined.

Lemma keywords_complete_positionals_witness :
  ConsHash.canonical_args ConsHash.example_init_args "Variable" [inl "x"]
    (list_to_map (zip ["size"] [inr 3%Z]))
  = Ok ([inl "x"] ++ [inr 3%Z] : list (string + Z)).
Proof.
  apply (keywords_complete_positionals ConsHash.example_init_args "Variable"
           [inl "x"] [inr 3%Z] ["size"]).
  - apply NoDup_singleton.
  - reflexivity.
  - discriminate.
  - reflexivity.
Defined.

(* ------------------------------------------------------------------ *)
(** ** reduce: the dims that remain *)

Lemma fmap_fst_filter (P : string -> Prop) `{!forall d, Decision (P d)}
    (s : list (string * size)) :
  (filter (fun kv => P kv.1) s).*1 = filter P s.*1.
Proof.
  induction s as [|[k v] s IH]; [done|].
  rewrite filter_cons. rewrite fmap_cons, filter_cons. cbn [fst].
  destruct (decide (P k)); [rewrite fmap_cons|]; by rewrite IH.
Qed.

Lemma dims_Reduction (o : op) (arg : term) (rd : gset string) :
  dims (Reduction o arg rd) = filter (fun d => d ∉ rd) (dims arg).
Proof.
  unfold dims at 1. cbn [schema]. rewrite <- (schema_keys arg).
  exact (fmap_fst_filter (fun d => d ∉ rd) (schema arg)).
Qed.

Lemma filter_ext_in {A} (P Q : A -> Prop) `{!forall x, Decision (P x)}
    `{!forall x, Decision (Q x)} (l : list A) :
  (forall x, x ∈ l -> (P x <-> Q x)) -> filter P l = filter Q l.
Proof.
  induction l as [|x l IH]; intros Hl; [done|].
  rewrite !filter_cons.
  destruct (decide (P x)) as [HP|HP], (decide (Q x)) as [HQ|HQ].
  - f_equal. apply IH. intros y Hy. apply Hl. by right.
  - exfalso. apply HQ, Hl; [by left|done].
  - exfalso. apply HP, Hl; [by left|done].
  - apply IH. intros y Hy. apply Hl. by right.
Qed.

Lemma filter_all {A} (P : A -> Prop) `{!forall x, Decision (P x)} (l : list A) :
  (forall x, x ∈ l -> P x) -> filter P l = l.
Proof.
  induction l as [|x l IH]; intros Hl; [done|].
  rewrite filter_cons, decide_True by (apply Hl; by left).
  f_equal. apply IH. intros y Hy. apply Hl. by right.
Qed.


Section ReduceDims.
Context `{Backend}.

(** [Funsor.reduce] removes the dims named by the set it computes. *)
Lemma dims_Funsor_reduce (x : term) (o : op) (d : dims_arg) (named : gset string) :
  (forall c, c ∈ dims x ->
     (c ∈ match d with
          | DNone => list_to_set (dims x)
          | DStr s => {[ s ]} ∩ list_to_set (dims x)
          | DSet A => A ∩ list_to_set (dims x)
          end <-> c ∈ named)) ->
  dims (Funsor_reduce x o d) = filter (fun c => c ∉ named) (dims x).
Proof.
  intros Hnamed. unfold Funsor_reduce.
  set (ds := match d with DNone => _ | DStr s => _ | DSet A => _ end) in *.
  unfold is_empty_set. case_bool_decide as Hempty.
  - symmetry. apply filter_all. intros c Hc Hin.
    apply Hnamed in Hin; [|done]. rewrite Hempty in Hin. by apply elem_of_empty in Hin.
  - rewrite dims_Reduction. apply filter_ext_in. intros c Hc.
    by rewrite (Hnamed c Hc).
Qed.



End ReduceDims.

(* ------------------------------------------------------------------ *)
(** ** reduce: a dimension given by name *)

Lemma chars_length (s c : string) : c ∈ chars s -> String.length c = 1.
Proof.
  induction s as [|a s IH]; cbn; [by intros ?%elem_of_nil|].
  intros [->|Hc]%elem_of_cons; [done|by apply IH].
Qed.

Section ReduceByName.
Context `{Backend}.

(** X12. A dimension passed to [reduce] by name is treated as one name by
    [Funsor.reduce], but [Reduction.reduce] makes a set of the string's
    characters: on a [Reduction] with the same op, a dimension whose name
    has two or more characters is not eliminated, while with another op
    it is. *)
Theorem reduce_by_name_on_Reduction (o o' : op) (arg : term) (rd : gset string) (s : string) :
  2 <= String.length s ->
  s ∈ dims (Reduction o arg rd) ->
  s ∈ dims (reduce (Reduction o arg rd) o (DStr s)) /\
  (o' <> o -> s ∉ dims (reduce (Reduction o arg rd) o' (DStr s))).
Proof.
  intros Hlen Hs. split.
  - cbn [reduce]. rewrite decide_True by done. cbn [frozenset].
    rewrite dims_Reduction in Hs |- *.
    apply list_elem_of_filter in Hs as [Hrd Harg].
    apply list_elem_of_filter. split; [|done].
    intros [Hin|Hin]%elem_of_union; [done|].
    apply elem_of_intersection in Hin as [Hin _].
    apply elem_of_list_to_set, chars_length in Hin. lia.
  - intros Hne. rewrite reduce_Reduction_other by done.
    rewrite (dims_Funsor_reduce _ o' (DStr s) {[ s ]}).
    + intros [Hnot _]%list_elem_of_filter. apply Hnot. set_solver.
    + intros c Hc. set_solver.
Qed.
End ReduceByName.

Lemma reduce_by_name_on_Reduction_witness :
  "ab" ∈ dims (@reduce zero_backend
                 (Reduction op_add
                    (Binary op_mul (Variable_ "ab" (SInt 2)) (Variable_ "c" (SInt 2)))
                    {[ "c" ]}) op_add (DStr "ab")) /\
  (op_mul <> op_add ->
   "ab" ∉ dims (@reduce zero_backend
                  (Reduction op_add
                     (Binary op_mul (Variable_ "ab" (SInt 2)) (Variable_ "c" (SInt 2)))
                     {[ "c" ]}) op_mul (DStr "ab"))).
Proof.
  apply (@reduce_by_name_on_Reduction zero_backend).
  - cbn. lia.
  - vm_compute. apply list_elem_of_here.
Defined.

(* ------------------------------------------------------------------ *)
(** ** Schemas of Binary and Substitution *)

Lemma schema_set_keys_list (d : string) (v : size) (s : list (string * size)) :
  (schema_set d v s).*1 = if decide (d ∈ s.*1) then s.*1 else s.*1 ++ [d].
Proof.
  induction s as [|[k w] s IH]; [done|].
  cbn [schema_set]. destruct (decide (k = d)) as [->|Hne].
  - rewrite decide_True; [done|]. rewrite fmap_cons. by left.
  - rewrite !fmap_cons. cbn [fst]. rewrite IH.
    destruct (decide (d ∈ s.*1)) as [Hin|Hout].
    + rewrite decide_True; [done|]. by right.
    + rewrite decide_False; [done|]. intros [->|?]%elem_of_cons; done.
Qed.

Lemma schema_update_keys_list (s other : list (string * size)) :
  NoDup other.*1 ->
  (schema_update s other).*1 = s.*1 ++ filter (fun d => d ∉ s.*1) other.*1.
Proof.
  unfold schema_update. revert s.
  induction other as [|[k w] other IH]; intros s Hnd; cbn [fold_left].
  - cbn. by rewrite app_nil_r.
  - rewrite fmap_cons in Hnd. apply NoDup_cons in Hnd as [Hk Hnd]. cbn [fst] in Hk.
    rewrite IH by done. cbn [fst snd]. rewrite schema_set_keys_list.
    rewrite fmap_cons, filter_cons. cbn [fst].
    destruct (decide (k ∈ s.*1)) as [Hin|Hout].
    + by rewrite decide_False by (intros Hn; by apply Hn).
    + rewrite decide_True by done. rewrite <- app_assoc. cbn. do 2 f_equal.
      apply filter_ext_in. intros c Hc. rewrite elem_of_app, list_elem_of_singleton.
      split; [tauto|]. intros Hn [?| ->]; done.
Qed.

Lemma schema_set_get (d d' : string) (v : size) (s : list (string * size)) :
  schema_get d' (schema_set d v s) = if decide (d = d') then Some v else schema_get d' s.
Proof.
  induction s as [|[k w] s IH]; cbn [schema_set schema_get].
  - destruct (decide (d = d')); done.
  - destruct (decide (k = d)) as [->|Hne]; cbn [schema_get].
    + destruct (decide (d = d')); done.
    + rewrite IH. destruct (decide (k = d')) as [->|]; [|done].
      by rewrite decide_False.
Qed.

Lemma schema_get_None (d : string) (s : list (string * size)) :
  d ∉ s.*1 -> schema_get d s = None.
Proof.
  induction s as [|[k w] s IH]; [done|]. rewrite fmap_cons. cbn.
  intros Hd. apply not_elem_of_cons in Hd as [Hne Hd].
  rewrite decide_False by done. by apply IH.
Qed.

Lemma schema_get_Some (d : string) (s : list (string * size)) :
  d ∈ s.*1 -> is_Some (schema_get d s).
Proof.
  induction s as [|[k w] s IH]; [by intros ?%elem_of_nil|]. rewrite fmap_cons. cbn.
  destruct (decide (k = d)); [by eexists|].
  intros [->|Hd]%elem_of_cons; [done|by apply IH].
Qed.

Lemma schema_update_get (d : string) (s other : list (string * size)) :
  NoDup other.*1 ->
  schema_get d (schema_update s other)
  = match schema_get d other with
    | Some v => Some v
    | None => schema_get d s
    end.
Proof.
  unfold schema_update. revert s.
  induction other as [|[k w] other IH]; intros s Hnd; cbn [fold_left]; [done|].
  rewrite fmap_cons in Hnd. apply NoDup_cons in Hnd as [Hk Hnd]. cbn [fst] in Hk.
  rewrite IH by done. cbn [schema_get fst snd].
  destruct (decide (k = d)) as [->|Hne].
  - rewrite (schema_get_None d other Hk). rewrite schema_set_get. by rewrite decide_True.
  - destruct (schema_get d other); [done|]. rewrite schema_set_get. by rewrite decide_False.
Qed.

(** X13. The dims of [Binary(op, lhs, rhs)] are the dims of [lhs] followed
    by those dims of [rhs] that [lhs] does not have, in their order, and
    they are unique when those of the operands are. *)
Theorem Binary_dims (o : op) (lhs rhs : term) :
  NoDup (dims rhs) ->
  dims (Binary o lhs rhs) = dims lhs ++ filter (fun d => d ∉ dims lhs) (dims rhs) /\
  (NoDup (dims lhs) -> NoDup (dims (Binary o lhs rhs))).
Proof.
  intros Hr.
  assert (dims (Binary o lhs rhs) = dims lhs ++ filter (fun d => d ∉ dims lhs) (dims rhs)) as E.
  { unfold dims at 1. cbn [schema]. rewrite schema_update_keys_list, !schema_keys; [done|].
    by rewrite schema_keys. }
  split; [exact E|]. intros Hl. rewrite E. apply NoDup_app. split; [done|]. split.
  - intros d Hd [Hn _]%list_elem_of_filter. done.
  - by apply NoDup_filter.
Qed.

(** X14. [Binary] does not compare the sizes of a dimension that both
    operands have: the size recorded for a dim of [rhs] is the one [rhs]
    gives, and for the other dims the one [lhs] gives. *)
Theorem Binary_sizes (o : op) (lhs rhs : term) (d : string) :
  NoDup (dims rhs) ->
  schema_get d (schema (Binary o lhs rhs))
  = if decide (d ∈ dims rhs) then schema_get d (schema rhs) else schema_get d (schema lhs).
Proof.
  intros Hr. cbn [schema]. rewrite schema_update_get by (by rewrite schema_keys).
  destruct (decide (d ∈ dims rhs)) as [Hin|Hout].
  - rewrite <- schema_keys in Hin. by destruct (schema_get_Some d _ Hin) as [v ->].
  - rewrite <- schema_keys in Hout. by rewrite (schema_get_None d _ Hout).
Qed.

Lemma Binary_dims_witness :
  dims (Binary op_add x_ij x_jk) = dims x_ij ++ filter (fun d => d ∉ dims x_ij) (dims x_jk) /\
  (NoDup (dims x_ij) -> NoDup (dims (Binary op_add x_ij x_jk))).
Proof.
  apply Binary_dims. vm_compute.
  repeat (constructor; [rewrite ?elem_of_cons, ?elem_of_nil; intuition discriminate|]).
  constructor.
Defined.

Lemma Binary_sizes_witness :
  schema_get "j" (schema (Binary op_add (Variable_ "j" (SInt 2)) (Variable_ "j" (SInt 5))))
  = if decide ("j" ∈ dims (Variable_ "j" (SInt 5)))
    then schema_get "j" (schema (Variable_ "j" (SInt 5)))
    else schema_get "j" (schema (Variable_ "j" (SInt 2))).
Proof.
  apply Binary_sizes. apply NoDup_singleton.
Defined.

Lemma schema_del_keys (d : string) (s : list (string * size)) :
  (schema_del d s).*1 = filter (fun c => c <> d) s.*1.
Proof. exact (fmap_fst_filter (fun c => c <> d) s). Qed.

Lemma fold_schema_del_keys (subs : list (string * term)) (s : list (string * size)) :
  (fold_left (fun acc dv => schema_del (fst dv) acc) subs s).*1
  = filter (fun c => c ∉ subs.*1) s.*1.
Proof.
  revert s. induction subs as [|[d v] subs IH]; intros s; cbn [fold_left].
  - symmetry. apply filter_all. intros c _. by intros ?%elem_of_nil.
  - rewrite IH, schema_del_keys. cbn [fst]. rewrite list_filter_filter.
    apply filter_ext_in. intros c Hc. rewrite fmap_cons, not_elem_of_cons. cbn. tauto.
Qed.

Lemma schema_update_prefix (s other : list (string * size)) :
  s.*1 `prefix_of` (schema_update s other).*1.
Proof.
  unfold schema_update. revert s. induction other as [|[k w] other IH]; intros s.
  - done.
  - cbn [fold_left]. etrans; [|apply IH]. cbn [fst snd]. rewrite schema_set_keys_list.
    case_decide; [done|]. by apply prefix_app_r.
Qed.

Lemma splice_spec (l : list (string * term)) (acc : schema_t) :
  let r := (fix splice (l : list (string * term)) (acc : schema_t) : schema_t :=
              match l with
              | [] => acc
              | (_, v) :: l' => splice l' (schema_update acc (schema v))
              end) l acc in
  acc.*1 `prefix_of` r.*1 /\
  list_to_set (C:=gset string) r.*1
  = list_to_set acc.*1 ∪ ⋃ ((fun dv => set_dims dv.2) <$> l).
Proof.
  revert acc. induction l as [|[d v] l IH]; intros acc; cbn zeta.
  - split; [done|]. cbn. set_solver.
  - destruct (IH (schema_update acc (schema v))) as [IH1 IH2]. cbn zeta in IH1, IH2. split.
    + etrans; [apply (schema_update_prefix acc (schema v))|exact IH1].
    + rewrite IH2, schema_update_keys, schema_keys. cbn. unfold set_dims. set_solver.
Qed.

(** X15. The dims of [Substitution(arg, subs)] start with the dims of
    [arg] that [subs] does not bind, in their order, and continue with
    dims of the replacement values; as a set they are the unbound dims of
    [arg] together with the dims of all the values. *)
Theorem Substitution_dims (arg : term) (subs : list (string * term)) :
  filter (fun c => c ∉ subs.*1) (dims arg) `prefix_of` dims (Substitution arg subs) /\
  set_dims (Substitution arg subs)
  = (set_dims arg ∖ list_to_set subs.*1) ∪ ⋃ ((fun dv => set_dims dv.2) <$> subs).
Proof.
  pose proof (splice_spec subs
                (fold_left (fun acc dv => schema_del (fst dv) acc) subs (schema arg)))
    as [Hp Hs].
  cbn zeta in Hp, Hs. rewrite fold_schema_del_keys, schema_keys in Hp, Hs.
  split; [exact Hp|].
  unfold set_dims at 1. etrans; [exact Hs|]. f_equal.
  apply set_eq. intros c.
  unfold set_dims. rewrite elem_of_difference, !elem_of_list_to_set, list_elem_of_filter. tauto.
Qed.

(* ------------------------------------------------------------------ *)
(** ** Canonicalization: dims before and after *)

Lemma Finitary_schema_keys (l : list (list (string * size))) (acc : list (string * size)) :
  list_to_set (C:=gset string) (fold_left schema_update l acc).*1
  = list_to_set acc.*1 ∪ ⋃ ((fun s => list_to_set (C:=gset string) s.*1) <$> l).
Proof.
  revert acc. induction l as [|s l IH]; intros acc; cbn [fold_left].
  - cbn. set_solver.
  - rewrite IH, schema_update_keys. cbn. set_solver.
Qed.

Lemma set_dims_Finitary (o : op) (operands : list term) :
  set_dims (Finitary o operands) = ⋃ (set_dims <$> operands).
Proof.
  unfold set_dims at 1. unfold dims. cbn [schema]. unfold Finitary_schema.
  rewrite Finitary_schema_keys. cbn. rewrite (left_id_L ∅ (∪)). f_equal.
  induction operands as [|t ts IH]; [done|]. cbn. rewrite IH. f_equal.
  unfold set_dims. by rewrite schema_keys.
Qed.

(** X16. [deoptimize_reduction] fuses a [Reduction] over a [Reduction] with
    the same op into one node with the same dims, and otherwise builds the
    node as it is; the node it returns is not directly over a same-op
    [Reduction] unless [arg] itself was. *)
Theorem deoptimize_reduction_dims (o : op) (arg : term) (rd : gset string) :
  dims (deoptimize_reduction o arg rd) = dims (Reduction o arg rd) /\
  (nested_reduction arg = false -> nested_reduction (deoptimize_reduction o arg rd) = false).
Proof.
  unfold deoptimize_reduction. destruct arg; try (split; [reflexivity|intros; reflexivity]).
  destruct (decide (o0 = o)) as [->|Hne].
  - split.
    + rewrite !dims_Reduction, list_filter_filter. apply filter_ext_in.
      intros c _. rewrite not_elem_of_union. tauto.
    + intros Hn. destruct arg; try reflexivity. exact Hn.
  - split; [reflexivity|]. intros _. cbn. apply bool_decide_eq_false_2. congruence.
Qed.

Lemma flat_map_dims (o : op) (operands : list term) :
  ⋃ (set_dims <$> flat_map (fun t => match t with
                                       | Finitary o' inner => if decide (o' = o) then inner else [t]
                                       | _ => [t]
                                       end) operands)
  = ⋃ (set_dims <$> operands).
Proof.
  induction operands as [|t ts IH]; [done|].
  cbn [flat_map]. rewrite fmap_app, union_list_app_L, IH. cbn [fmap list_fmap union_list foldr].
  f_equal. destruct t; try (cbn; set_solver).
  destruct (decide (o0 = o)); [|cbn; set_solver].
  by rewrite set_dims_Finitary.
Qed.

(** X17. When every operand is a ground term or a [Finitary],
    [deoptimize_finitary] returns the [Finitary] over the operands with
    the same-op [Finitary] children replaced by their own operands, and
    the dims are unchanged. *)
Theorem deoptimize_finitary_flattens (o : op) (operands : list term) :
  forallb (fun t => is_Finitary t || is_GROUND_TERM t) operands = true ->
  exists new_operands,
    deoptimize_finitary o operands = Ok (Finitary o new_operands) /\
    set_dims (Finitary o new_operands) = set_dims (Finitary o operands) /\
    (forall t, t ∈ new_operands ->
       t ∈ operands \/ exists inner, Finitary o inner ∈ operands /\ t ∈ inner).
Proof.
  intros Hall. unfold deoptimize_finitary. rewrite Hall.
  eexists. split; [reflexivity|]. split.
  - rewrite !set_dims_Finitary. apply flat_map_dims.
  - intros t Ht. apply list_elem_of_In, in_flat_map in Ht as (t0 & Hin & Ht).
    apply list_elem_of_In in Hin.
    destruct t0; try (destruct Ht as [<-|[]]; by left).
    destruct (decide (o0 = o)) as [->|].
    + right. exists operands0. split; [done|]. by apply list_elem_of_In.
    + destruct Ht as [<-|[]]. by left.
Qed.

Lemma deoptimize_finitary_flattens_witness :
  exists new_operands,
    deoptimize_finitary op_mul [Finitary op_mul [Number 1; Number 2]; Number 3]
    = Ok (Finitary op_mul new_operands) /\
    set_dims (Finitary op_mul new_operands)
    = set_dims (Finitary op_mul [Finitary op_mul [Number 1; Number 2]; Number 3]) /\
    (forall t, t ∈ new_operands ->
       t ∈ [Finitary op_mul [Number 1; Number 2]; Number 3] \/
       exists inner, Finitary op_mul inner ∈ [Finitary op_mul [Number 1; Number 2]; Number 3] /\
                     t ∈ inner).
Proof.
  apply deoptimize_finitary_flattens. reflexivity.
Defined.

Lemma all_Reduction_not_first_case (operands : list term) :
  operands <> [] -> forallb is_Reduction operands = true ->
  forallb (fun t => is_Finitary t || is_GROUND_TERM t) operands = false.
Proof.
  destruct operands as [|t ts]; [done|]. intros _ Hall. cbn in *.
  apply andb_true_iff in Hall as [Ht _]. by destruct t.
Qed.

Lemma merged_reduce_dims_set (operands : list term) (acc : gset string) :
  exists A,
    fold_left (fun acc t =>
                 match t with Reduction _ _ rd => pyset_union acc rd | _ => acc end)
              operands (PySet acc)
    = PySet A.
Proof.
  revert acc. induction operands as [|t ts IH]; intros acc; [by exists acc|].
  cbn [fold_left]. destruct t; apply IH.
Qed.

(** X18. When every operand is a [Reduction], [deoptimize_finitary] does
    not return the merged [Reduction]: it collects the reduced dims in a
    [set], which cannot be part of the interning key, and the construction
    of the [Reduction] raises [TypeError]. *)
Theorem deoptimize_finitary_merge_raises (o : op) (operands : list term) :
  operands <> [] -> forallb is_Reduction operands = true ->
  deoptimize_finitary o operands = Raise TypeError.
Proof.
  intros Hne Hall. unfold deoptimize_finitary.
  rewrite (all_Reduction_not_first_case operands Hne Hall), Hall.
  destruct (merged_reduce_dims_set operands ∅) as [A ->].
  destruct operands as [|t ts]; [done|].
  cbn in Hall. apply andb_true_iff in Hall as [Ht _]. by destruct t.
Qed.

Lemma deoptimize_finitary_merge_raises_witness :
  deoptimize_finitary op_mul
    [Reduction op_add x_ij {[ "j" ]}; Reduction op_add x_kl {[ "k" ]}]
  = Raise TypeError.
Proof.
  apply deoptimize_finitary_merge_raises; [discriminate | reflexivity].
Defined.

(* ------------------------------------------------------------------ *)
(** ** The optimizer on any path *)

Lemma path_step_short (ro fo : op) (D : gset string) (st : path_state) (ab : nat * nat) :
  length (ps_operands st) < 2 -> path_step ro fo D st ab = Raise IndexError.
Proof.
  intros Hlen. destruct ab as [a b]. unfold path_step.
  destruct (ps_operands st) as [|t [|t' l]]; cbn in Hlen; [| |lia].
  - by rewrite lookup_nil.
  - destruct a as [|a]; [|done]. destruct b as [|b]; [|done]. cbn.
    by rewrite decide_False by lia.
Qed.

(** On paths made of pairs the two readings of the loop agree. *)
Lemma run_raw_path_pairs (ro fo : op) (D : gset string) (path : list (nat * nat))
    (st : path_state) :
  run_raw_path ro fo D ((fun ab => [ab.1; ab.2]) <$> path) st = run_path ro fo D path st.
Proof.
  revert st. induction path as [|[a b] path IH]; intros st; [done|].
  cbn [fmap list_fmap run_raw_path run_path fst snd].
  destruct (path_step ro fo D st (a, b)) as [st'|e]; cbn; [apply IH|done].
Qed.

Lemma optimize_reduction_on_pairs `{PathOptimizer} (o fo : op) (operands : list term)
    (D : gset string) :
  optimize_reduction_on ((fun ab => [ab.1; ab.2]) <$> optimizer_path operands D)
    o fo operands D
  = optimize_reduction o (Finitary fo operands) D.
Proof. unfold optimize_reduction_on, optimize_reduction. by rewrite run_raw_path_pairs. Qed.

(** X19. A [Finitary] with fewer than two operands has no pairwise step,
    and [optimize_reduction] raises on it whatever path opt_einsum
    returns: [UnboundLocalError] for the empty path, where [path_end] is
    never bound, [ValueError] when the first element is not a pair, and
    [IndexError] when it is one. *)
Theorem optimize_needs_two_operands (path : list (list nat)) (o fo : op)
    (operands : list term) (D : gset string) :
  length operands < 2 ->
  optimize_reduction_on path o fo operands D
  = Raise (match path with
           | [] => UnboundLocalError
           | [_; _] :: _ => IndexError
           | _ :: _ => ValueError
           end).
Proof.
  intros Hlen. unfold optimize_reduction_on.
  destruct path as [|[|a [|b [|c step]]] path]; try reflexivity.
  cbn [run_raw_path].
  by rewrite (path_step_short o fo D (initial_state operands) (a, b) Hlen).
Qed.

Lemma optimize_needs_two_operands_witness :
  optimize_reduction_on [[0]] op_add op_neg [x_ij] {[ "j" ]} = Raise ValueError.
Proof.
  apply (optimize_needs_two_operands [[0]] op_add op_neg [x_ij] {[ "j" ]}). cbn. lia.
Defined.

Lemma path_end_in_operands (ro fo : op) (D : gset string) (path : list (nat * nat))
    (st st' : path_state) (pe : term) :
  path <> [] ->
  run_path ro fo D path st = Ok st' ->
  ps_path_end st' = Some pe -> pe ∈ ps_operands st'.
Proof.
  revert st. induction path as [|ab path IH]; intros st Hne; [done|].
  cbn [run_path]. destruct (path_step ro fo D st ab) as [st1|] eqn:Hstep; cbn; [|discriminate].
  destruct path as [|ab' path].
  - intros [= <-]. destruct ab as [a b].
    apply path_step_inv in Hstep as (ta & tb & c2 & S & _ & _ & Hlen & _ & _ & ->).
    cbn. intros [= <-]. by apply list_elem_of_insert.
  - by apply IH.
Qed.

(** X20. Whatever path the optimizer returns, valid or not, a term that
    [optimize_reduction] returns for a [Finitary] mentions only dims of
    the operands and none of the dims to reduce. *)
Theorem optimize_result_dims `{PathOptimizer} (o fo : op) (operands : list term)
    (D : gset string) (t : term) :
  optimize_reduction o (Finitary fo operands) D = Ok t ->
  set_dims t ⊆ ⋃ (set_dims <$> operands) ∖ D.
Proof.
  unfold optimize_reduction.
  destruct (run_path o fo D (optimizer_path operands D) (initial_state operands))
    as [st|] eqn:Hrun; cbn; [|discriminate].
  destruct (ps_path_end st) as [pe|] eqn:Hend; [|discriminate].
  pose proof (prefix_invariant _ _ _ _ _ _ Hrun) as (Hc & Hops & _).
  assert (optimizer_path operands D <> []) as Hne.
  { intros E. rewrite E in Hrun. cbn in Hrun. injection Hrun as <-. discriminate. }
  pose proof (Hops pe (path_end_in_operands _ _ _ _ _ _ _ Hne Hrun Hend)) as Hpe.
  assert (forall d, d ∈ set_dims pe -> d ∈ D -> d ∈ final_reduce_dims (ps_counter st) D)
    as Hfinal.
  { intros d Hd HdD. apply final_reduce_dims_spec. split; [|done].
    rewrite Hc. apply initial_counter_positive. by apply Hpe. }
  unfold is_empty_set. case_bool_decide as Hempty; intros [= <-].
  - intros d Hd. apply elem_of_difference. split; [by apply Hpe|].
    intros HdD. specialize (Hfinal d Hd HdD). rewrite Hempty in Hfinal.
    by apply elem_of_empty in Hfinal.
  - rewrite set_dims_Reduction. intros d [Hd Hn]%elem_of_difference.
    apply elem_of_difference. split; [by apply Hpe|].
    intros HdD. by apply Hn, Hfinal.
Qed.

Lemma optimize_result_dims_witness :
  set_dims (Reduction op_add
              (Reduction op_add (Finitary op_mul [x_ij; x_jk]) ∅) {[ "j" ]})
  ⊆ ⋃ (set_dims <$> [x_ij; x_jk]) ∖ {[ "j" ]}.
Proof.
  apply (@optimize_result_dims left_to_right op_add op_mul [x_ij; x_jk] {[ "j" ]}).
  vm_compute. reflexivity.
Defined.

(* ------------------------------------------------------------------ *)
(** ** Contraction: the handlers for two tensors and the lazy node *)

Section TensorContraction.
Context `{Backend}.

(** X21. The handler for two [Tensor]s raises [KeyError] when a
    dimension to eliminate is a dim of neither operand, before the backend
    is called.  Otherwise it asks [opt_einsum.contract] for the dims of
    [lhs] followed by the new dims of [rhs], without the eliminated ones,
    and hands the result to [Tensor] with these dims: a failure of the
    backend or of the constructor is the outcome of the handler, and a
    term that is returned is a [Tensor] with exactly these dims. *)
Theorem contract_tensor_tensor_dims (backend : string)
    (ldims : list string) (ldata : torch_Tensor)
    (rdims : list string) (rdata : torch_Tensor) (D : gset string) :
  (~ D ⊆ list_to_set ldims ∪ list_to_set rdims ->
   contract_tensor_tensor backend ldims ldata rdims rdata D = Raise KeyError) /\
  (D ⊆ list_to_set ldims ∪ list_to_set rdims ->
   exists out : list string,
     contract_tensor_tensor backend ldims ldata rdims rdata D
     = (data ← opt_einsum_contract backend ldata ldims rdata rdims out;
        Tensor_init out data) /\
     list_to_set (C:=gset string) out = (list_to_set ldims ∪ list_to_set rdims) ∖ D /\
     (NoDup rdims ->
      out = filter (fun d => d ∉ D) (ldims ++ filter (fun d => d ∉ ldims) rdims)) /\
     (forall t, contract_tensor_tensor backend ldims ldata rdims rdata D = Ok t ->
        is_Tensor t = true /\ dims t = out)).
Proof.
  unfold contract_tensor_tensor. cbn [schema].
  set (s := schema_update _ _).
  assert (list_to_set (C:=gset string) s.*1 = list_to_set ldims ∪ list_to_set rdims) as Hs.
  { unfold s. by rewrite schema_update_keys, !pair_sizes_keys. }
  split; intros HD.
  - rewrite bool_decide_eq_false_2; [done|]. by rewrite Hs.
  - rewrite bool_decide_eq_true_2 by (by rewrite Hs).
    set (out := (filter _ s).*1).
    assert (out = filter (fun d => d ∉ D) s.*1) as Hout
      by exact (fmap_fst_filter (fun d => d ∉ D) s).
    exists out. split; [reflexivity|]. split; [|split].
    + rewrite Hout, <- Hs. apply set_eq. intros c.
      rewrite elem_of_difference, !elem_of_list_to_set, list_elem_of_filter. tauto.
    + intros Hnd. rewrite Hout. unfold s.
      rewrite schema_update_keys_list, !pair_sizes_keys; [done|].
      by rewrite pair_sizes_keys.
    + intros t.
      destruct (opt_einsum_contract backend ldata ldims rdata rdims out) as [data|e];
        cbn; [|discriminate].
      unfold Tensor_init. destruct (Funsor_init out _); cbn; [|discriminate].
      by intros [= <-].
Qed.
End TensorContraction.

(** X22. [Contract] accepts a dimension name exactly when it is a dim of
    both operands; the node then has the dims of the two operands but that
    one. *)
Theorem Contract_init_dim (sum_op prod_op : op) (lhs rhs : term) (d : string) :
  (d ∈ dims lhs /\ d ∈ dims rhs ->
   Contract_init sum_op prod_op lhs rhs (PStr d) = Ok (Contract sum_op prod_op lhs rhs (PStr d)) /\
   set_dims (Contract sum_op prod_op lhs rhs (PStr d))
   = (set_dims lhs ∪ set_dims rhs) ∖ {[ d ]}) /\
  (~ (d ∈ dims lhs /\ d ∈ dims rhs) ->
   Contract_init sum_op prod_op lhs rhs (PStr d) = Raise AssertionError).
Proof.
  unfold Contract_init, py_in. split.
  - intros [Hl Hr]. rewrite !bool_decide_eq_true_2 by done. split; [reflexivity|].
    unfold set_dims at 1. unfold dims at 1. cbn [schema].
    rewrite schema_del_keys.
    assert (forall l : list string,
              list_to_set (C:=gset string) (filter (fun c => c <> d) l)
              = list_to_set l ∖ {[ d ]}) as Hdel.
    { intros l. apply set_eq. intros c.
      rewrite elem_of_difference, !elem_of_list_to_set, list_elem_of_filter,
        elem_of_singleton. tauto. }
    rewrite Hdel, schema_update_keys, !schema_keys. reflexivity.
  - intros Hn. destruct (bool_decide (d ∈ dims lhs)) eqn:E1; [|done].
    destruct (bool_decide (d ∈ dims rhs)) eqn:E2; [|done].
    exfalso. apply Hn.
    split; [exact (bool_decide_eq_true_1 _ E1) | exact (bool_decide_eq_true_1 _ E2)].
Qed.

(* ------------------------------------------------------------------ *)
(** ** align *)

Lemma size_list_to_set_le (l : list string) :
  base.size (list_to_set (C:=gset string) l) <= length l.
Proof.
  induction l as [|a l IH]; [done|]. cbn [list_to_set length].
  destruct (decide (a ∈ l)) as [Hin|Hout].
  - replace ({[ a ]} ∪ list_to_set (C:=gset string) l) with (list_to_set (C:=gset string) l).
    + lia.
    + apply set_eq. intros c. rewrite elem_of_union, elem_of_singleton, elem_of_list_to_set.
      split; [by right|]. by intros [->|].
  - rewrite size_union.
    + rewrite size_singleton. lia.
    + apply disjoint_singleton_l. by rewrite elem_of_list_to_set.
Qed.

Lemma size_list_to_set_NoDup (l : list string) :
  base.size (list_to_set (C:=gset string) l) = length l -> NoDup l.
Proof.
  induction l as [|a l IH]; [constructor|]. cbn [list_to_set length].
  pose proof (size_list_to_set_le l) as Hle.
  destruct (decide (a ∈ l)) as [Hin|Hout].
  - replace ({[ a ]} ∪ list_to_set (C:=gset string) l) with (list_to_set (C:=gset string) l).
    + lia.
    + apply set_eq. intros c. rewrite elem_of_union, elem_of_singleton, elem_of_list_to_set.
      split; [by right|]. by intros [->|].
  - rewrite size_union.
    + rewrite size_singleton. intros Hs. constructor; [done|]. apply IH. lia.
    + apply disjoint_singleton_l. by rewrite elem_of_list_to_set.
Qed.

Lemma Funsor_init_Ok (ds : list string) (sh : list size) :
  Funsor_init ds sh = Ok () -> NoDup ds /\ length ds = length sh.
Proof.
  unfold Funsor_init.
  destruct (bool_decide (base.size (list_to_set (C:=gset string) ds) = length ds)) eqn:E1;
    [|discriminate].
  destruct (forallb valid_size sh); [|discriminate].
  destruct (bool_decide (length ds = length sh)) eqn:E2; [|discriminate].
  intros _. apply bool_decide_eq_true in E1, E2. split; [|done].
  by apply size_list_to_set_NoDup.
Qed.

Lemma Align_init_Ok (arg : term) (ds : list string) (sh : list size) (y : term) :
  Align_init arg ds sh = Ok y -> y = Align arg ds sh.
Proof.
  unfold Align_init. case_match; [|discriminate].
  destruct (Funsor_init ds sh); cbn; [|discriminate]. by intros [= <-].
Qed.

Lemma Tensor_init_Ok (ds : list string) (data : torch_Tensor) (y : term) :
  Tensor_init ds data = Ok y -> y = Tensor ds data.
Proof.
  unfold Tensor_init. destruct (Funsor_init _ _); cbn; [|discriminate]. by intros [= <-].
Qed.

Lemma derive_shape_None (self : term) (ds : list string) (s : list size) :
  derive_shape self ds None = Ok s ->
  list_to_set (C:=gset string) ds = set_dims self /\ sizes_of (schema self) ds = Ok s.
Proof.
  unfold derive_shape. case_bool_decide as E; [|discriminate]. by split.
Qed.

Lemma Funsor_align_Ok (self : term) (ds : list string) (sh : option (list size)) (y : term) :
  Funsor_align self ds sh = Ok y ->
  (y = self /\ ds = dims self) \/ (exists s, y = Align self ds s).
Proof.
  unfold Funsor_align. destruct (derive_shape self ds sh) as [s|e]; cbn; [|discriminate].
  destruct (decide (ds = dims self)) as [->|Hne].
  - destruct (decide (s = shape self)); [|discriminate]. intros [= <-]. by left.
  - intros Hy%Align_init_Ok. right. by exists s.
Qed.

Section AlignProps.
Context `{Layout}.

Lemma Tensor_align_Ok (self_dims : list string) (data : torch_Tensor)
    (ds : list string) (sh : option (list size)) (y : term) :
  Tensor_align (Tensor self_dims data) self_dims data ds sh = Ok y ->
  (y = Tensor self_dims data /\ ds = self_dims) \/
  (exists s, y = Align (Tensor self_dims data) ds s) \/
  (exists data', y = Tensor ds data').
Proof.
  unfold Tensor_align.
  destruct (derive_shape (Tensor self_dims data) ds sh) as [s|e]; cbn; [|discriminate].
  destruct (decide (ds = self_dims)) as [->|Hne].
  - destruct (decide (s = _)); [|discriminate]. intros [= <-]. by left.
  - case_bool_decide.
    + destruct (positions self_dims ds) as [ps|e]; cbn; [|discriminate].
      destruct (torch_permute data ps) as [data'|e]; cbn; [|discriminate].
      intros Hy%Tensor_init_Ok. right. right. by exists data'.
    + intros Hy%Align_init_Ok. right. left. by exists s.
Qed.

Lemma align_Ok (x : term) (ds : list string) (sh : option (list size)) (y : term) :
  align x ds sh = Ok y ->
  dims y = ds /\
  (y = strip_align x \/
   (exists s, y = Align (strip_align x) ds s) \/
   (exists tds data data', strip_align x = Tensor tds data /\ y = Tensor ds data')).
Proof.
  revert ds sh.
  induction x; intros ds0 sh0 Hy; cbn [align strip_align] in *;
    try (apply Funsor_align_Ok in Hy as [[-> ->]|[s ->]];
         by (split; [reflexivity|]; first [by left | right; left; by eexists])).
  - (* Align *)
    destruct (derive_shape _ ds0 sh0) as [s|e]; cbn in Hy; [|discriminate].
    by apply IHx in Hy.
  - (* Tensor *)
    apply Tensor_align_Ok in Hy as [[-> ->]|[[s ->]|[data' ->]]].
    + split; [reflexivity|]. by left.
    + split; [reflexivity|]. right. left. by eexists.
    + split; [reflexivity|]. right. right. by eexists _, _, _.
Qed.

(** X23. A call of [align] that returns, returns a term without an
    [Align] inside an [Align]: the term under the wrappers of [x] itself,
    one [Align] around that term, or, for a [Tensor], a [Tensor] with the
    requested dims.  In each case the result has the requested dims. *)
Theorem align_result (x : term) (ds : list string) (sh : option (list size)) (y : term) :
  align x ds sh = Ok y ->
  dims y = ds /\
  (y = strip_align x \/
   (exists s, y = Align (strip_align x) ds s) \/
   (exists tds data data', strip_align x = Tensor tds data /\ y = Tensor ds data')).
Proof. apply align_Ok. Qed.

(** X24. With no [shape] given, [align] only rearranges: it returns only
    when [dims] names exactly the dims of [x], and the result has the same
    set of dims as [x]. *)
Theorem align_rearranges (x : term) (ds : list string) (y : term) :
  align x ds None = Ok y ->
  list_to_set (C:=gset string) ds = set_dims x /\ set_dims y = set_dims x.
Proof.
  intros Hy.
  assert (list_to_set (C:=gset string) ds = set_dims x) as Hds.
  { destruct x; cbn [align] in Hy; unfold Funsor_align, Tensor_align in Hy;
      (destruct (derive_shape _ ds None) as [s|e] eqn:E; [|discriminate]);
      by apply derive_shape_None in E as [? _]. }
  split; [done|].
  apply align_Ok in Hy as [Hy _]. unfold set_dims at 1. by rewrite Hy.
Qed.
End AlignProps.

Lemma sizes_of_cons_notin (k : string) (v : size) (s : list (string * size))
    (ds : list string) :
  k ∉ ds -> sizes_of ((k, v) :: s) ds = sizes_of s ds.
Proof.
  induction ds as [|d ds IH]; [done|]. intros Hk. apply not_elem_of_cons in Hk as [Hne Hk].
  cbn [sizes_of schema_get]. rewrite decide_False by done. by rewrite IH.
Qed.

Lemma sizes_of_keys (s : list (string * size)) :
  NoDup s.*1 -> sizes_of s s.*1 = Ok s.*2.
Proof.
  induction s as [|[k v] s IH]; [done|]. rewrite fmap_cons. cbn [fst].
  intros [Hk Hnd]%NoDup_cons. cbn [sizes_of schema_get]. rewrite decide_True by done.
  rewrite sizes_of_cons_notin by done. by rewrite IH.
Qed.

Lemma sizes_of_ext (s1 s2 : list (string * size)) (ds : list string) :
  (forall d, d ∈ ds -> schema_get d s1 = schema_get d s2) ->
  sizes_of s1 ds = sizes_of s2 ds.
Proof.
  induction ds as [|d ds IH]; [done|]. intros Hext. cbn [sizes_of].
  rewrite (Hext d) by left. rewrite IH; [done|]. intros c Hc. apply Hext. by right.
Qed.

Lemma pair_sizes_get (sch : list (string * size)) (ds : list string) (s : list size)
    (d : string) :
  sizes_of sch ds = Ok s -> d ∈ ds ->
  schema_get d (pair_sizes ds s) = schema_get d sch.
Proof.
  revert s. induction ds as [|d0 ds IH]; intros s Hs Hd; [by apply elem_of_nil in Hd|].
  cbn [sizes_of] in Hs. destruct (schema_get d0 sch) as [v|] eqn:E; [|discriminate].
  destruct (sizes_of sch ds) as [vs|e]; cbn in Hs; [|discriminate].
  injection Hs as <-. cbn [pair_sizes hd tl schema_get].
  destruct (decide (d0 = d)) as [->|Hne]; [done|].
  apply elem_of_cons in Hd as [->|Hd]; [done|]. by apply IH.
Qed.

Lemma pair_sizes_values (ds : list string) (sh : list size) :
  length ds = length sh -> (pair_sizes ds sh).*2 = sh.
Proof.
  revert sh. induction ds as [|d ds IH]; intros [|v sh] Hlen; try done.
  cbn. rewrite IH; [done|]. by injection Hlen.
Qed.

Lemma schema_values (x : term) :
  length (dims x) = length (shape x) -> (schema x).*2 = shape x.
Proof. destruct x; try reflexivity; cbn; apply pair_sizes_values. Qed.

Lemma derive_shape_own (x : term) :
  Funsor_init (dims x) (shape x) = Ok () ->
  derive_shape x (dims x) None = Ok (shape x).
Proof.
  intros [Hnd Hlen]%Funsor_init_Ok. unfold derive_shape.
  rewrite bool_decide_eq_true_2 by done.
  rewrite <- (schema_values x Hlen). rewrite <- (schema_keys x) in Hnd |- *.
  by apply sizes_of_keys.
Qed.

Lemma Funsor_align_own (x : term) (sh : option (list size)) :
  derive_shape x (dims x) sh = Ok (shape x) ->
  Funsor_align x (dims x) sh = Ok x.
Proof.
  intros Hs. unfold Funsor_align. rewrite Hs. cbn.
  rewrite decide_True by done. by rewrite decide_True.
Qed.

Lemma align_own `{Layout} (x : term) :
  is_Align x = false ->
  Funsor_init (dims x) (shape x) = Ok () ->
  align x (dims x) None = Ok x.
Proof.
  intros Hx Hinit. pose proof (derive_shape_own x Hinit) as Hs.
  destruct x; try discriminate; cbn [align]; try by apply Funsor_align_own.
  unfold Tensor_align. rewrite Hs. cbn.
  rewrite decide_True by done. by rewrite decide_True.
Qed.

(** X25. Aligning a term to the dims it already has returns the term
    itself: this holds for every term that is not an [Align] and passed
    the checks of [Funsor.__init__]. *)
Theorem align_own_dims `{Layout} (x : term) :
  is_Align x = false ->
  Funsor_init (dims x) (shape x) = Ok () ->
  align x (dims x) None = Ok x.
Proof. apply align_own. Qed.

(** X26. Aligning back undoes [align]: when a lazy term [x] is aligned to
    a rearrangement of its dims, aligning the result to the dims of [x]
    returns [x] itself, not a second wrapper. *)
Theorem align_round_trip `{Layout} (x : term) (ds : list string) (y : term) :
  is_Align x = false -> is_Tensor x = false ->
  Funsor_init (dims x) (shape x) = Ok () ->
  align x ds None = Ok y ->
  align y (dims x) None = Ok x.
Proof.
  intros Hx Ht Hinit Hy.
  assert (align x ds None = Funsor_align x ds None) as Hgen
    by (destruct x; try discriminate; reflexivity).
  assert (forall sh, align x (dims x) sh = Funsor_align x (dims x) sh) as Hgen'
    by (intros sh; destruct x; try discriminate; reflexivity).
  rewrite Hgen in Hy. unfold Funsor_align in Hy.
  destruct (derive_shape x ds None) as [s|e] eqn:E; cbn in Hy; [|discriminate].
  apply derive_shape_None in E as [Hset Hsizes].
  destruct (decide (ds = dims x)) as [->|Hne].
  - destruct (decide (s = shape x)); [|discriminate]. injection Hy as <-.
    by apply align_own.
  - apply Align_init_Ok in Hy as ->. cbn [align].
    assert (derive_shape (Align x ds s) (dims x) None = Ok (shape x)) as ->.
    { unfold derive_shape. cbn [dims schema]. rewrite bool_decide_eq_true_2 by done.
      rewrite <- (derive_shape_own x Hinit). unfold derive_shape.
      rewrite bool_decide_eq_true_2 by done.
      apply sizes_of_ext. intros d Hd. apply (pair_sizes_get _ _ _ _ Hsizes).
      apply (elem_of_list_to_set (C:=gset string)). rewrite Hset.
      by apply elem_of_list_to_set. }
    cbn. rewrite Hgen'. by apply Funsor_align_own.
Qed.

Lemma align_own_dims_witness :
  @align no_permute lazy_ji (dims lazy_ji) None = Ok lazy_ji.
Proof. apply (@align_own_dims no_permute lazy_ji); reflexivity. Defined.

Lemma align_round_trip_witness :
  @align no_permute aligned_ij (dims lazy_ji) None = Ok lazy_ji.
Proof.
  apply (@align_round_trip no_permute lazy_ji ["i"; "j"] aligned_ij); reflexivity.
Defined.

Lemma align_result_witness :
  dims aligned_ij = ["i"; "j"] /\
  (aligned_ij = strip_align lazy_ji \/
   (exists s, aligned_ij = Align (strip_align lazy_ji) ["i"; "j"] s) \/
   (exists tds data data',
      strip_align lazy_ji = Tensor tds data /\ aligned_ij = Tensor ["i"; "j"] data')).
Proof.
  apply (@align_result no_permute lazy_ji ["i"; "j"] None aligned_ij). reflexivity.
Defined.

Lemma align_rearranges_witness :
  list_to_set (C:=gset string) ["i"; "j"] = set_dims lazy_ji /\
  set_dims aligned_ij = set_dims lazy_ji.
Proof.
  apply (@align_rearranges no_permute lazy_ji ["i"; "j"] aligned_ij). reflexivity.
Defined.
